(** * Verification model of the downly media pipeline (backend services).

  Shallow embedding of the TypeScript services of the backend:
  - [Js]       : JavaScript strings as lists of UTF-16 code units;
  - [Double]   : JavaScript numbers, IEEE-754 doubles with rounding to
                 nearest, on the integral operands the services use;
  - [Progress] : ProgressService (the progress bus) and the byte counter
                 of DownloadService.streamDownload;
  - [Queue]    : QueueService (the single-active-job scheduler);
  - [Url]      : utils/urlValidator.isValidUrl;
  - [Analyze]  : YtDlpService.normalizeResponse;
  - [Filename] : utils/safeFilename.safeFilename. *)

From Stdlib Require Import List Bool Arith ZArith NArith String Ascii Lia.
From Stdlib Require Import Sorted Permutation.
Import ListNotations.

Open Scope bool_scope.

(** ** JavaScript strings *)
Module Js.

(** A JS string is a sequence of UTF-16 code units. *)
Definition jsstr := list N.

(** ASCII literal to JS string. *)
Definition js (s : string) : jsstr :=
  map N_of_ascii (list_ascii_of_string s).
Arguments js : simpl never.

(** [===] on strings. *)
Fixpoint str_eqb (a b : jsstr) : bool :=
  match a, b with
  | [], [] => true
  | x :: a', y :: b' => N.eqb x y && str_eqb a' b'
  | _, _ => false
  end.

Lemma str_eqb_eq : forall a b, str_eqb a b = true <-> a = b.
Proof.
  induction a as [|x a IH]; destruct b as [|y b]; simpl;
    try (split; congruence).
  rewrite andb_true_iff, N.eqb_eq, IH. split.
  - intros [-> ->]; reflexivity.
  - intros H; inversion H; auto.
Qed.

Lemma str_eqb_refl : forall a, str_eqb a a = true.
Proof. intros a; apply str_eqb_eq; reflexivity. Qed.

Lemma str_eqb_neq : forall a b, str_eqb a b = false <-> a <> b.
Proof.
  intros a b; rewrite <- str_eqb_eq; destruct (str_eqb a b); split;
    congruence.
Qed.

(** Truthiness of a string: only [""] is falsy. *)
Definition truthy (s : jsstr) : bool :=
  match s with [] => false | _ => true end.

(** Truthiness of an optional string ([undefined] is falsy). *)
Definition otruthy (o : option jsstr) : option jsstr :=
  match o with
  | Some s => if truthy s then Some s else None
  | None => None
  end.

(** [`${x}`] of an optional string: [undefined] renders as "undefined". *)
Definition render_opt (o : option jsstr) : jsstr :=
  match o with Some s => s | None => js "undefined" end.

(** Optional-string [===] ([undefined === s] is false). *)
Definition ostr_eqb (o : option jsstr) (s : jsstr) : bool :=
  match o with Some t => str_eqb t s | None => false end.

End Js.
Import Js.

(** ** Numbers: IEEE-754 binary64 with round-to-nearest-even *)
Module Double.
Local Open Scope Z_scope.

(** [round_even a d]: [a / d] rounded to the nearest integer, ties to
    even ([0 < d]). *)
Definition round_even (a d : Z) : Z :=
  let q := a / d in
  let r := a mod d in
  if 2 * r <? d then q
  else if d <? 2 * r then q + 1
  else if Z.even q then q else q + 1.

(** [flog2 p q = floor(log2(p / q))] for [0 < p], [0 < q]. *)
Definition flog2 (p q : Z) : Z :=
  let k := Z.log2 p - Z.log2 q in
  if q * 2 ^ Z.max 0 k <=? p * 2 ^ Z.max 0 (- k) then k else k - 1.

(** A finite double [mant * 2 ^ expo]; [rn p q] is the double nearest to
    [p / q] (ties to even), with 53 significant bits and subnormals down to
    [2 ^ -1074]; overflow is handled by the callers that can reach it. *)
Record dbl := mkD { mant : Z; expo : Z }.

Definition rn (p q : Z) : dbl :=
  let a := Z.abs p in
  if a =? 0 then mkD 0 0 else
  let e := Z.max (flog2 a q - 52) (-1074) in
  mkD (Z.sgn p * round_even (a * 2 ^ Z.max 0 (- e)) (q * 2 ^ Z.max 0 e)) e.

(** The value of a double as the fraction [num x / den x]. *)
Definition num (x : dbl) : Z := mant x * 2 ^ Z.max 0 (expo x).
Definition den (x : dbl) : Z := 2 ^ Z.max 0 (- expo x).

(** The operators of JavaScript on numbers that are integers: [a / b]
    and [x * c] round the exact result; [Math.floor] and [Math.round]
    ([floor(x + 1/2)]) are exact. *)
Definition div (a b : Z) : dbl := if b <? 0 then rn (- a) (- b) else rn a b.
Definition mul_int (x : dbl) (c : Z) : dbl := rn (num x * c) (den x).
Definition math_floor (x : dbl) : Z := num x / den x.
Definition math_round (x : dbl) : Z := (2 * num x + den x) / (2 * den x).

(** [parseInt] of a string of decimal digits of value [v]: the double
    nearest to [v] (V8 rounds correctly), [Infinity] when that rounding
    reaches [2 ^ 1024]. *)
Inductive jsnum := JFin (z : Z) | JInf.
Definition parse_int (v : Z) : jsnum :=
  let x := rn v 1 in
  if 2 ^ 1024 <=? math_floor x then JInf else JFin (math_floor x).

(** The sign of [x - y] for two integral numbers, the only part of a
    comparator's result that [Array.prototype.sort] uses: the difference of
    two finite doubles is rounded but keeps the sign of the exact one, and
    [Infinity - Infinity] is NaN, which [sort] reads as [+0]. *)
Definition sub_sign (x y : jsnum) : Z :=
  match x, y with
  | JFin a, JFin b => Z.sgn (a - b)
  | JInf, JFin _ => 1
  | JFin _, JInf => -1
  | JInf, JInf => 0
  end.

(** [x <= y] on integral numbers and [Infinity]. *)
Definition jsnum_le (x y : jsnum) : Prop :=
  match x, y with
  | JFin a, JFin b => a <= b
  | _, JInf => True
  | JInf, JFin _ => False
  end.

End Double.

(** ** The progress bus (services/progressService.ts) *)
Module Progress.

Local Open Scope Z_scope.

Inductive PStatus := PDownloading | PCompleted | PError | PCancelled.

Definition pstatus_eqb (a b : PStatus) : bool :=
  match a, b with
  | PDownloading, PDownloading | PCompleted, PCompleted
  | PError, PError | PCancelled, PCancelled => true
  | _, _ => false
  end.

(** [interface DownloadProgress]. *)
Record DownloadProgress := mkProgress {
  downloadId : jsstr;
  bytesDownloaded : Z;
  totalBytes : option Z;
  percentage : option Z;
  status : PStatus;
  error : option jsstr
}.

(** The progress record with a new status ([{...session.progress, status}]). *)
Definition with_status (st : PStatus) (p : DownloadProgress) : DownloadProgress :=
  mkProgress (downloadId p) (bytesDownloaded p) (totalBytes p) (percentage p)
    st (error p).

(** [interface DownloadSession]; the process and stream handles are left
    out: they only serve to kill the child. *)
Record DownloadSession := mkSession {
  sess_downloadId : jsstr;
  sess_url : jsstr;
  sess_formatId : jsstr;
  sess_progress : DownloadProgress;
  sess_createdAt : Z
}.

Definition set_sess_progress (p : DownloadProgress) (se : DownloadSession)
  : DownloadSession :=
  mkSession (sess_downloadId se) (sess_url se) (sess_formatId se) p
    (sess_createdAt se).

(** The service: the [sessions] map in insertion order, and the
    ['progress'] events emitted so far (oldest first). *)
Record Bus := mkBus {
  sessions : list (jsstr * DownloadSession);
  emitted : list DownloadProgress
}.

Definition bus0 : Bus := mkBus [] [].

Definition get (dl : jsstr) (b : Bus) : option DownloadSession :=
  match find (fun kv => str_eqb (fst kv) dl) (sessions b) with
  | Some (_, se) => Some se
  | None => None
  end.

(** [session.progress = p; this.emit('progress', session.progress)] *)
Definition put_and_emit (dl : jsstr) (se : DownloadSession)
    (p : DownloadProgress) (b : Bus) : Bus :=
  mkBus
    (map (fun kv => if str_eqb (fst kv) dl then (fst kv, set_sess_progress p se)
                    else kv) (sessions b))
    (emitted b ++ [p]).

(** [createSession(url, formatId, downloadId?)]; [gen] is the generated id. *)
Definition createSession (b : Bus) (u fid : jsstr) (downloadId : option jsstr)
    (gen : jsstr) (now : Z) : jsstr * Bus :=
  let i := match otruthy downloadId with Some x => x | None => gen end in
  match get i b with
  | Some _ => (i, b)
  | None =>
      let se := mkSession i u fid
                  (mkProgress i 0 None None PDownloading None) now in
      (i, mkBus (sessions b ++ [(i, se)]) (emitted b))
  end.

(** [Math.round((bytesDownloaded / totalBytes) * 100)] on doubles: the
    quotient is rounded, the product by 100 is rounded, then [Math.round]. *)
Definition round_pct (b t : Z) : Z :=
  Double.math_round (Double.mul_int (Double.div b t) 100).

(** [totalBytes ? Math.round(...) : null] *)
Definition pct_of (b : Z) (total : option Z) : option Z :=
  match total with
  | Some t => if Z.eqb t 0 then None else Some (round_pct b t)
  | None => None
  end.

(** [updateProgress(downloadId, bytesDownloaded, totalBytes = null)] *)
Definition updateProgress (b : Bus) (dl : jsstr) (bytes : Z)
    (total : option Z) : Bus :=
  match get dl b with
  | None => b
  | Some se =>
      put_and_emit dl se
        (mkProgress dl bytes total (pct_of bytes total) PDownloading None) b
  end.

(** [markCompleted(downloadId)] *)
Definition markCompleted (b : Bus) (dl : jsstr) : Bus :=
  match get dl b with
  | None => b
  | Some se =>
      let p := sess_progress se in
      put_and_emit dl se
        (mkProgress (downloadId p) (bytesDownloaded p) (totalBytes p)
           (Some 100) PCompleted (error p)) b
  end.

(** [markError(downloadId, error)] *)
Definition markError (b : Bus) (dl : jsstr) (e : jsstr) : Bus :=
  match get dl b with
  | None => b
  | Some se =>
      let p := sess_progress se in
      put_and_emit dl se
        (mkProgress (downloadId p) (bytesDownloaded p) (totalBytes p)
           (percentage p) PError (Some e)) b
  end.

(** [cancelDownload(downloadId)]; the delayed removal of the session is a
    timer, outside this model. *)
Definition cancelDownload (b : Bus) (dl : jsstr) : bool * Bus :=
  match get dl b with
  | None => (false, b)
  | Some se =>
      (true, put_and_emit dl se (with_status PCancelled (sess_progress se)) b)
  end.

(** [getProgress(downloadId)] *)
Definition getProgress (b : Bus) (dl : jsstr) : option DownloadProgress :=
  match get dl b with Some se => Some (sess_progress se) | None => None end.

(** Status of a session, if present. *)
Definition status_of (b : Bus) (dl : jsstr) : option PStatus :=
  match getProgress b dl with Some p => Some (status p) | None => None end.

End Progress.

(** ** The job scheduler (services/queueService.ts) *)
Module Queue.

Inductive JobType := Download | Convert.
Inductive JobStatus := Queued | Downloading | Converting | Completed | Failed.
Inductive ConversionFormat := Mp3 | Mp4 | Webm | Aac.

Definition jobtype_eqb (a b : JobType) : bool :=
  match a, b with
  | Download, Download | Convert, Convert => true
  | _, _ => false
  end.

Definition status_eqb (a b : JobStatus) : bool :=
  match a, b with
  | Queued, Queued | Downloading, Downloading | Converting, Converting
  | Completed, Completed | Failed, Failed => true
  | _, _ => false
  end.

Lemma status_eqb_eq : forall a b, status_eqb a b = true <-> a = b.
Proof. destruct a, b; simpl; split; congruence. Qed.

(** [job.status === 'downloading' || job.status === 'converting'] *)
Definition is_active (st : JobStatus) : bool :=
  match st with Downloading | Converting => true | _ => false end.

Record JobProgress := mkJobProgress {
  jp_bytesDownloaded : Z;
  jp_totalBytes : option Z;
  jp_percentage : option Z
}.

(** [interface QueueJob]; dates are timestamps in [Z]. *)
Record QueueJob := mkJob {
  id : jsstr;
  type : JobType;
  url : jsstr;
  formatId : option jsstr;
  targetFormat : option ConversionFormat;
  inputFile : option jsstr;
  dependsOn : option jsstr;
  status : JobStatus;
  createdAt : Z;
  startedAt : option Z;
  completedAt : option Z;
  error : option jsstr;
  downloadId : option jsstr;
  progress : option JobProgress
}.

(** Field assignments on a job object. *)
Definition set_status (st : JobStatus) (j : QueueJob) : QueueJob :=
  mkJob (id j) (type j) (url j) (formatId j) (targetFormat j) (inputFile j)
    (dependsOn j) st (createdAt j) (startedAt j) (completedAt j) (error j)
    (downloadId j) (progress j).

Definition set_started (st : JobStatus) (now : Z) (dl : jsstr)
    (j : QueueJob) : QueueJob :=
  mkJob (id j) (type j) (url j) (formatId j) (targetFormat j) (inputFile j)
    (dependsOn j) st (createdAt j) (Some now) (completedAt j) (error j)
    (Some dl) (progress j).

(** [job.status = 'completed'; job.completedAt = new Date()] *)
Definition set_completed (now : Z) (j : QueueJob) : QueueJob :=
  mkJob (id j) (type j) (url j) (formatId j) (targetFormat j) (inputFile j)
    (dependsOn j) Completed (createdAt j) (startedAt j) (Some now) (error j)
    (downloadId j) (progress j).

(** [job.status = 'failed'; job.error = e; job.completedAt = new Date()] *)
Definition set_failed (e : option jsstr) (now : Z) (j : QueueJob) : QueueJob :=
  mkJob (id j) (type j) (url j) (formatId j) (targetFormat j) (inputFile j)
    (dependsOn j) Failed (createdAt j) (startedAt j) (Some now) e
    (downloadId j) (progress j).

Definition set_progress (p : JobProgress) (j : QueueJob) : QueueJob :=
  mkJob (id j) (type j) (url j) (formatId j) (targetFormat j) (inputFile j)
    (dependsOn j) (status j) (createdAt j) (startedAt j) (completedAt j)
    (error j) (downloadId j) (Some p).

(** The scheduler state: [jobs] is the [Map] in insertion order,
    [queue] the array of job ids, [activeJob] the single active job. *)
Record QState := mkQ {
  jobs : list QueueJob;
  queue : list jsstr;
  activeJob : option jsstr
}.

Definition empty : QState := mkQ [] [] None.

(** [this.jobs.get(x)] *)
Definition lookup (x : jsstr) (js : list QueueJob) : option QueueJob :=
  find (fun j => str_eqb (id j) x) js.

(** Mutating the object stored under key [x]. *)
Definition update (x : jsstr) (f : QueueJob -> QueueJob) (js : list QueueJob)
  : list QueueJob :=
  map (fun j => if str_eqb (id j) x then f j else j) js.

Definition upd_jobs (s : QState) (js : list QueueJob) : QState :=
  mkQ js (queue s) (activeJob s).

(** [this.queue[0] === x] *)
Definition head_is (q : list jsstr) (x : jsstr) : bool :=
  match q with h :: _ => str_eqb h x | [] => false end.

(** [indexOf] followed by [splice(i, 1)]. *)
Fixpoint remove_first (x : jsstr) (q : list jsstr) : list jsstr :=
  match q with
  | [] => []
  | h :: t => if str_eqb h x then t else h :: remove_first x t
  end.

Definition is_none {A} (o : option A) : bool :=
  match o with None => true | Some _ => false end.

(** [canJobStart(job)] *)
Definition canJobStart (s : QState) (j : QueueJob) : bool :=
  match otruthy (dependsOn j) with
  | None => true
  | Some d =>
      match lookup d (jobs s) with
      | None => false
      | Some dep => status_eqb (status dep) Completed
      end
  end.

(** [processQueue()]: with no active job, heads whose job is gone are
    shifted off; otherwise only snapshots are emitted. *)
Fixpoint drain (js : list QueueJob) (q : list jsstr) : list jsstr :=
  match q with
  | [] => []
  | h :: t =>
      match lookup h js with
      | None => drain js t
      | Some _ => q
      end
  end.

Definition processQueue (s : QState) : QState :=
  match activeJob s with
  | Some _ => s
  | None => mkQ (jobs s) (drain (jobs s) (queue s)) None
  end.

(** The [try] part of [finishJob]: clear [activeJob] if it is [x]. *)
Definition clear_active (a : option jsstr) (x : jsstr) : option jsstr :=
  match a with
  | Some y => if str_eqb y x then None else a
  | None => None
  end.

Definition finish_clear (s : QState) (x : jsstr) : QState :=
  mkQ (jobs s) (queue s) (clear_active (activeJob s) x).

(** [finishJob(x)]: the [finally] always runs the drain. *)
Definition finishJob (s : QState) (x : jsstr) : QState :=
  processQueue (finish_clear s x).

(** [notifyDependentJobs] only emits events. *)
Definition notifyDependentJobs (s : QState) (_ : jsstr) : QState := s.

(** [failDependentJobs(d, err)]: each queued convert job depending on
    [d] is spliced out of the queue and failed. *)
Definition is_dependent (d : jsstr) (j : QueueJob) : bool :=
  jobtype_eqb (type j) Convert && ostr_eqb (dependsOn j) d
  && status_eqb (status j) Queued.

Fixpoint fail_deps_loop (d err : jsstr) (now : Z) (js : list QueueJob)
    (q : list jsstr) : list QueueJob * list jsstr :=
  match js with
  | [] => ([], q)
  | j :: rest =>
      let q1 := if is_dependent d j then remove_first (id j) q else q in
      let j1 := if is_dependent d j then set_failed (Some err) now j else j in
      let (rest', q2) := fail_deps_loop d err now rest q1 in
      (j1 :: rest', q2)
  end.

Definition failDependentJobs (s : QState) (d err : jsstr) (now : Z) : QState :=
  let (js, q) := fail_deps_loop d err now (jobs s) (queue s) in
  mkQ js q (activeJob s).

(** Thrown errors of the methods that can throw. *)
Inductive outcome (A : Type) : Type :=
| Returns : A -> outcome A
| Throws : jsstr -> outcome A.
Arguments Returns {A} _.
Arguments Throws {A} _.

(** [const id = jobId || this.generateJobId()]; [gen] is the generated id. *)
Definition pick_id (jobId : option jsstr) (gen : jsstr) : jsstr :=
  match otruthy jobId with Some x => x | None => gen end.

(** The ['progress'] listener installed by the constructor. *)
Definition find_by_download (dl : jsstr) (l : list QueueJob)
  : option QueueJob :=
  find (fun j => ostr_eqb (downloadId j) dl) l.

Definition onProgress (s : QState) (p : Progress.DownloadProgress) (now : Z)
  : QState :=
  match find_by_download (Progress.downloadId p) (jobs s) with
  | None => s
  | Some j =>
      let x := id j in
      let s1 := upd_jobs s
        (update x (set_progress
           (mkJobProgress (Progress.bytesDownloaded p) (Progress.totalBytes p)
              (Progress.percentage p))) (jobs s)) in
      match Progress.status p with
      | Progress.PCompleted =>
          if is_active (status j) then
            let s2 := upd_jobs s1 (update x (set_completed now) (jobs s1)) in
            let s3 := if jobtype_eqb (type j) Download
                      then notifyDependentJobs s2 x else s2 in
            finishJob s3 x
          else s1
      | Progress.PError =>
          let s2 := upd_jobs s1
            (update x (set_failed (Progress.error p) now) (jobs s1)) in
          let s3 := if jobtype_eqb (type j) Download
                    then failDependentJobs s2 x
                           (js "Dependency failed: "
                            ++ render_opt (Progress.error p)) now
                    else s2 in
          finishJob s3 x
      | _ => s1
      end
  end.

(** [addDownloadJob(url, formatId, jobId?)]. *)
Definition addDownloadJob (s : QState) (u fid : jsstr) (jobId : option jsstr)
    (gen : jsstr) (now : Z) : (jsstr * bool) * QState :=
  let i := pick_id jobId gen in
  match lookup i (jobs s) with
  | Some _ =>
      (* [existingJob.status === 'queued' && this.processing === null]:
         [this.processing] is not a field, so the test is false *)
      ((i, false), s)
  | None =>
      let j := mkJob i Download u (Some fid) None None None Queued now
                 None None None None None in
      let s1 := mkQ (jobs s ++ [j]) (queue s ++ [i]) (activeJob s) in
      let canStart := is_none (activeJob s1) && head_is (queue s1) i in
      ((i, canStart), if canStart then processQueue s1 else s1)
  end.

(** [addConvertJob(url, targetFormat, dependsOn?, inputFile?, jobId?)]. *)
Definition addConvertJob (s : QState) (u : jsstr) (tf : ConversionFormat)
    (dep : option jsstr) (inp : option jsstr) (jobId : option jsstr)
    (gen : jsstr) (now : Z) : outcome ((jsstr * bool) * QState) :=
  let i := pick_id jobId gen in
  match lookup i (jobs s) with
  | Some ej =>
      Returns ((i, status_eqb (status ej) Queued && is_none (activeJob s)
                   && canJobStart s ej), s)
  | None =>
      let check :=
        match otruthy dep with
        | None => None
        | Some d =>
            match lookup d (jobs s) with
            | None => Some (js "Dependency job " ++ d ++ js " not found")
            | Some dj =>
                if jobtype_eqb (type dj) Download then None
                else Some (js "Dependency job " ++ d
                           ++ js " must be a download job")
            end
        end in
      match check with
      | Some msg => Throws msg
      | None =>
          let j := mkJob i Convert u None (Some tf) inp dep Queued now
                     None None None None None in
          let s1 := mkQ (jobs s ++ [j]) (queue s ++ [i]) (activeJob s) in
          let canStart := is_none (activeJob s1) && head_is (queue s1) i
                          && canJobStart s1 j in
          Returns ((i, canStart), if canStart then processQueue s1 else s1)
      end
  end.

(** [startJob(jobId, downloadId)]. *)
Definition startJob (s : QState) (x dl : jsstr) (now : Z) : bool * QState :=
  match lookup x (jobs s) with
  | None => (false, s)
  | Some j =>
      if negb (is_none (activeJob s)) then (false, s)
      else if negb (head_is (queue s) x) then (false, s)
      else if negb (canJobStart s j) then (false, s)
      else
        let st := if jobtype_eqb (type j) Download then Downloading
                  else Converting in
        (true, mkQ (update x (set_started st now dl) (jobs s))
                 (tl (queue s)) (Some x))
  end.

(** [completeJob(jobId)]: the part before [finishJob]. *)
Definition completeJob_mark (s : QState) (x : jsstr) (j : QueueJob) (now : Z)
  : QState :=
  let s1 := upd_jobs s (update x (set_completed now) (jobs s)) in
  if jobtype_eqb (type j) Download then notifyDependentJobs s1 (id j) else s1.

Definition completeJob (s : QState) (x : jsstr) (now : Z) : QState :=
  match lookup x (jobs s) with
  | None => s
  | Some j => finishJob (completeJob_mark s x j now) x
  end.

(** [failJob(jobId, error)]: the part before [finishJob]. *)
Definition failJob_mark (s : QState) (x : jsstr) (j : QueueJob) (e : jsstr)
    (now : Z) : QState :=
  let s1 := upd_jobs s (update x (set_failed (Some e) now) (jobs s)) in
  if jobtype_eqb (type j) Download
  then failDependentJobs s1 (id j) (js "Dependency failed: " ++ e) now
  else s1.

Definition failJob (s : QState) (x e : jsstr) (now : Z) : QState :=
  match lookup x (jobs s) with
  | None => s
  | Some j => finishJob (failJob_mark s x j e now) x
  end.

(** [cancelJob(jobId)] up to the call of [processQueue]. [bus] is the
    progress bus: [progressService.cancelDownload] emits the session's
    progress with status ['cancelled'], which reaches [onProgress]. *)
Definition cancelJob_entry (s : QState) (bus : Progress.Bus) (x : jsstr)
    (j : QueueJob) (now : Z) : QState :=
  let s1 := mkQ (jobs s) (remove_first x (queue s)) (activeJob s) in
  let s2 :=
    if ostr_eqb (activeJob s1) x then
      let s1' :=
        match otruthy (downloadId j) with
        | Some dl =>
            match Progress.getProgress bus dl with
            | Some p => onProgress s1 (Progress.with_status Progress.PCancelled p) now
            | None => s1
            end
        | None => s1
        end in
      mkQ (jobs s1') (queue s1') None
    else s1 in
  upd_jobs s2
    (update x (set_failed (Some (js "Cancelled by user")) now) (jobs s2)).

Definition cancelJob (s : QState) (bus : Progress.Bus) (x : jsstr) (now : Z)
  : bool * QState :=
  match lookup x (jobs s) with
  | None => (false, s)
  | Some j => (true, processQueue (cancelJob_entry s bus x j now))
  end.

(** State on entry to [processQueue] after a terminal transition. *)
Definition completeJob_entry (s : QState) (x : jsstr) (now : Z)
  : option QState :=
  match lookup x (jobs s) with
  | None => None
  | Some j => Some (finish_clear (completeJob_mark s x j now) x)
  end.

Definition failJob_entry (s : QState) (x e : jsstr) (now : Z)
  : option QState :=
  match lookup x (jobs s) with
  | None => None
  | Some j => Some (finish_clear (failJob_mark s x j e now) x)
  end.

Definition cancelJob_entry_opt (s : QState) (bus : Progress.Bus) (x : jsstr)
    (now : Z) : option QState :=
  match lookup x (jobs s) with
  | None => None
  | Some j => Some (cancelJob_entry s bus x j now)
  end.

(** One public operation of the scheduler, or one progress event. *)
Inductive step : QState -> QState -> Prop :=
| StAddDownload s u fid jobId gen now :
    step s (snd (addDownloadJob s u fid jobId gen now))
| StAddConvert s u tf dep inp jobId gen now r :
    addConvertJob s u tf dep inp jobId gen now = Returns r ->
    step s (snd r)
| StStart s x dl now : step s (snd (startJob s x dl now))
| StComplete s x now : step s (completeJob s x now)
| StFail s x e now : step s (failJob s x e now)
| StCancel s bus x now : step s (snd (cancelJob s bus x now))
| StProgress s p now : step s (onProgress s p now).

Inductive reachable : QState -> Prop :=
| reach_init : reachable empty
| reach_step s s' : reachable s -> step s s' -> reachable s'.

End Queue.

(** ** The byte counter of DownloadService.streamDownload *)
Module Stream.
Import Progress.
Local Open Scope Z_scope.

(** What reaches the progress bus for one [downloadId] while it streams. *)
Inductive StreamInput :=
| Chunk (len : N)
    (* [transform(chunk)]: a stdout chunk of [len] bytes *)
| StderrTotal (total : N)
    (* stderr data matching the progress line "[download] P% of SIZE UNIT"
       (UNIT one of KiB, MiB, GiB); [total] is
       [Math.round(parseFloat(SIZE) * unit)] *)
| Flush
    (* [flush()]: end of stdout *)
| Fail (msg : jsstr)
    (* [markError] from the error, timeout or exit handlers, or the route *)
| Done
    (* [markCompleted] from the exit or close handlers, or the route *)
| Cancel.
    (* [progressService.cancelDownload] from the scheduler or the route *)

(** The closure's [bytesDownloaded] counter and the progress bus; the
    counter is a sum of chunk lengths, which doubles add exactly below
    [2 ^ 53] bytes. *)
Record SState := mkS { counter : Z; bus : Bus }.

Definition stream_step (dl : jsstr) (st : SState) (i : StreamInput) : SState :=
  match i with
  | Chunk n =>
      let b := counter st + Z.of_N n in
      if Z.eqb (b mod 65536) 0 || (65536 <=? Z.of_N n)
      then mkS b (updateProgress (bus st) dl b None)
      else mkS b (bus st)
  | StderrTotal t =>
      mkS (counter st) (updateProgress (bus st) dl (counter st) (Some (Z.of_N t)))
  | Flush =>
      mkS (counter st)
        (markCompleted (updateProgress (bus st) dl (counter st) None) dl)
  | Fail m => mkS (counter st) (markError (bus st) dl m)
  | Done => mkS (counter st) (markCompleted (bus st) dl)
  | Cancel => mkS (counter st) (snd (cancelDownload (bus st) dl))
  end.

Definition run (dl : jsstr) (st : SState) (l : list StreamInput) : SState :=
  fold_left (stream_step dl) l st.

(** The route creates the session [dl], then [streamDownload] starts
    with [bytesDownloaded = 0]. *)
Definition start (u fid dl : jsstr) (now : Z) : SState :=
  mkS 0 (snd (createSession bus0 u fid (Some dl) dl now)).

(** The percentage of an event is null, 100, or computed from the
    event's own bytes and (positive) total. *)
Definition pct_consistent (p : DownloadProgress) : Prop :=
  percentage p = None \/ percentage p = Some 100
  \/ exists t, totalBytes p = Some t /\ 0 < t
               /\ percentage p = Some (round_pct (bytesDownloaded p) t).

(** A progress-bus run used by the counterexamples. *)
Definition busD : Bus :=
  snd (createSession bus0 (js "https://e.com/v") (js "18") (Some (js "d"))
         (js "g") 0).

End Stream.

(** ** Concrete scheduler runs used by the witnesses and counterexamples *)
Module QueueScenarios.
Import Queue.

(** [dependency (if any) has status 'completed'], as a proposition. *)
Definition dependency_completed (s : QState) (j : QueueJob) : Prop :=
  forall d, otruthy (dependsOn j) = Some d ->
    exists dj, lookup d (jobs s) = Some dj /\ status dj = Completed.

(** Download job "a" admitted, then started. *)
Definition sA : QState :=
  snd (addDownloadJob empty (js "https://e.com/v") (js "18") (Some (js "a"))
         (js "g0") 0).
Definition sAB : QState :=
  snd (addDownloadJob sA (js "https://e.com/w") (js "18") (Some (js "b"))
         (js "g1") 1).
Definition sAB_started : QState := snd (startJob sAB (js "a") (js "a") 2).

(** Download job "d", and a convert job "c" depending on it. *)
Definition sDC : QState :=
  match addConvertJob sA (js "https://e.com/v") Mp3 (Some (js "a")) None
          (Some (js "c")) (js "g1") 1 with
  | Returns r => snd r
  | Throws _ => sA
  end.

(** Download job "a" failed, then completed. *)
Definition sA_failed : QState := failJob sA (js "a") (js "boom") 3.

Definition status_in (s : QState) (x : jsstr) : option JobStatus :=
  match lookup x (jobs s) with Some j => Some (status j) | None => None end.

End QueueScenarios.

(** ** URL policy (utils/urlValidator.js) *)
Module Url.

Local Open Scope N_scope.

Definition is_alpha (c : N) : bool :=
  ((65 <=? c) && (c <=? 90)) || ((97 <=? c) && (c <=? 122)).
Definition is_digit (c : N) : bool := (48 <=? c) && (c <=? 57).
Definition is_hex (c : N) : bool :=
  is_digit c || ((65 <=? c) && (c <=? 70)) || ((97 <=? c) && (c <=? 102)).
Definition hex_val (c : N) : N :=
  if is_digit c then c - 48 else if c <=? 70 then c - 55 else c - 87.
Definition lower_ascii (c : N) : N :=
  if (65 <=? c) && (c <=? 90) then c + 32 else c.
(** [toLowerCase()] on ASCII text (the hosts below are ASCII). *)
Definition to_lower (s : jsstr) : jsstr := map lower_ascii s.
Definition printable (c : N) : bool := (33 <=? c) && (c <=? 126).

Fixpoint prefixb (p s : jsstr) : bool :=
  match p, s with
  | [], _ => true
  | x :: p', y :: s' => (x =? y) && prefixb p' s'
  | _ :: _, [] => false
  end.

(** Outcome of a parsing step: a value, a parse failure (the URL
    constructor throws), or an input outside the modelled fragment. *)
Inductive res (A : Type) := ROk (a : A) | RFail | RUnm.
Arguments ROk {A} a.
Arguments RFail {A}.
Arguments RUnm {A}.

(** *** The WHATWG URL parser, on a fragment of its inputs *)

(** Scheme state: ASCII alphanumerics, [+], [-], [.] up to [:],
    lowercased; anything else (with no base URL) is a failure. *)
Fixpoint scheme_split (s : jsstr) : option (jsstr * jsstr) :=
  match s with
  | [] => None
  | c :: r =>
      if c =? 58 then Some ([], r)
      else if is_alpha c || is_digit c || (c =? 43) || (c =? 45) || (c =? 46)
      then match scheme_split r with
           | Some (b, rest) => Some (lower_ascii c :: b, rest)
           | None => None
           end
      else None
  end.

(** Special authority (ignore) slashes states: skip [/] and [\]. *)
Fixpoint skip_slashes (s : jsstr) : jsstr :=
  match s with
  | c :: r => if (c =? 47) || (c =? 92) then skip_slashes r else s
  | [] => []
  end.

(** Authority of a special URL: up to [/], [?], [#] or [\]. *)
Definition is_auth_end (c : N) : bool :=
  (c =? 47) || (c =? 63) || (c =? 35) || (c =? 92).

Fixpoint take_until (p : N -> bool) (s : jsstr) : jsstr * jsstr :=
  match s with
  | [] => ([], [])
  | c :: r =>
      if p c then ([], s)
      else let (a, b) := take_until p r in (c :: a, b)
  end.

(** Host state: the first [:] outside brackets starts the port. *)
Fixpoint split_port (inb : bool) (s : jsstr) : jsstr * option jsstr :=
  match s with
  | [] => ([], None)
  | c :: r =>
      if (c =? 58) && negb inb then ([], Some r)
      else
        let inb' := if c =? 91 then true else if c =? 93 then false else inb in
        let (h, p) := split_port inb' r in (c :: h, p)
  end.

Definition digits_value (s : jsstr) : N :=
  fold_left (fun v c => v * 10 + (c - 48)) s 0.

(** Port state: only ASCII digits, value at most 65535. *)
Definition port_ok (p : option jsstr) : bool :=
  match p with
  | None => true
  | Some ds => forallb is_digit ds && (digits_value ds <=? 65535)
  end.

(** IPv6 parser: up to four hex digits per piece. *)
Fixpoint take_hex (n : nat) (v : N) (s : jsstr) : N * jsstr :=
  match n, s with
  | S n', c :: r => if is_hex c then take_hex n' (v * 16 + hex_val c) r else (v, s)
  | _, _ => (v, s)
  end.

(** The main loop: [pieces] are [address[0 .. pieceIndex-1]]; a
    compression ([::]) leaves a 0 piece and records [compress].  An
    embedded IPv4 part ([.]) is not modelled. *)
Fixpoint ipv6_loop (fuel : nat) (s : jsstr) (pieces : list N)
    (compress : option nat) : res (list N * option nat) :=
  match fuel with
  | O => RUnm
  | S f =>
      match s with
      | [] => ROk (pieces, compress)
      | c :: r =>
          if Nat.eqb (List.length pieces) 8 then RFail
          else if c =? 58 then
            match compress with
            | Some _ => RFail
            | None => ipv6_loop f r (pieces ++ [0]) (Some (S (List.length pieces)))
            end
          else
            let (v, r') := take_hex 4 0 s in
            match r' with
            | [] => ipv6_loop f [] (pieces ++ [v]) compress
            | d :: r'' =>
                if d =? 46 then RUnm
                else if d =? 58 then
                  match r'' with
                  | [] => RFail
                  | _ => ipv6_loop f r'' (pieces ++ [v]) compress
                  end
                else RFail
            end
      end
  end.

(** Moving the pieces after [compress] to the end of the address. *)
Definition ipv6_parse (s : jsstr) : res (list N) :=
  let start :=
    match s with
    | 58 :: 58 :: r => ROk (r, [0], Some 1%nat)
    | 58 :: _ => RFail
    | _ => ROk (s, [], None)
    end in
  match start with
  | RFail => RFail
  | RUnm => RUnm
  | ROk (r, pieces, compress) =>
      match ipv6_loop (S (List.length r)) r pieces compress with
      | RFail => RFail
      | RUnm => RUnm
      | ROk (l, Some k) =>
          ROk (firstn k l ++ repeat 0 (8 - List.length l) ++ skipn k l)
      | ROk (l, None) =>
          if Nat.eqb (List.length l) 8 then ROk l else RFail
      end
  end.

(** IPv6 serializer. *)
Fixpoint zero_run (l : list N) : nat :=
  match l with 0 :: r => S (zero_run r) | _ => O end.

(** First index of a longest run of 0 pieces, if longer than 1. *)
Fixpoint compress_index (i : nat) (rest : list N) (best_i : option nat)
    (best_len : nat) : option nat :=
  match rest with
  | [] => best_i
  | _ :: r =>
      let len := zero_run rest in
      if Nat.ltb best_len len then compress_index (S i) r (Some i) len
      else compress_index (S i) r best_i best_len
  end.

Definition hex_char (d : N) : N := if d <? 10 then 48 + d else 87 + d.

Fixpoint hex_of_aux (fuel : nat) (v : N) (acc : jsstr) : jsstr :=
  match fuel with
  | O => acc
  | S f => if v <? 16 then hex_char v :: acc
           else hex_of_aux f (v / 16) (hex_char (v mod 16) :: acc)
  end.

(** A piece in shortest lowercase hexadecimal. *)
Definition hex_of (v : N) : jsstr := hex_of_aux 4 v [].

Definition opt_nat_eqb (o : option nat) (i : nat) : bool :=
  match o with Some k => Nat.eqb k i | None => false end.

Fixpoint ser_loop (i : nat) (a : list N) (comp : option nat) (ignore0 : bool)
  : jsstr :=
  match a with
  | [] => []
  | p :: r =>
      if ignore0 && (p =? 0) then ser_loop (S i) r comp true
      else if opt_nat_eqb comp i then
        (if Nat.eqb i 0 then [58; 58] else [58]) ++ ser_loop (S i) r comp true
      else hex_of p ++ (if Nat.eqb i 7 then [] else [58])
             ++ ser_loop (S i) r comp false
  end.

Definition ipv6_serialize (a : list N) : jsstr :=
  ser_loop 0 a (compress_index 0 a None 1) false.

(** Domains. *)
Fixpoint split_on (sep : N) (s : jsstr) : list jsstr :=
  match s with
  | [] => [[]]
  | c :: r =>
      if c =? sep then [] :: split_on sep r
      else match split_on sep r with
           | p :: ps => (c :: p) :: ps
           | [] => [[c]]
           end
  end.

(** Forbidden domain code points (C0 controls, space, [#], [%], [/],
    [:], [<], [>], [?], [@], [[], [\], []], [^], [|], U+007F). *)
Definition forbidden_domain (c : N) : bool :=
  (c <=? 32) || (c =? 127) ||
  existsb (N.eqb c) [35; 37; 47; 58; 60; 62; 63; 64; 91; 92; 93; 94; 124].

(** The ends-in-a-number checker. *)
Definition ends_in_number (s : jsstr) : bool :=
  let parts := split_on 46 s in
  let parts :=
    match rev parts with
    | [] :: ((_ :: _) as rest) => rev rest
    | _ => parts
    end in
  match rev parts with
  | last :: _ =>
      (truthy last && forallb is_digit last)
      || match last with
         | 48 :: x :: h => ((x =? 120) || (x =? 88)) && forallb is_hex h
         | _ => false
         end
  | [] => false
  end.

(** Host parser, for a special URL and a non-empty host. Percent-escapes,
    Punycode labels ([xn--]) and IPv4 hosts are outside the fragment. *)
Definition host_parse (h : jsstr) : res jsstr :=
  match h with
  | 91 :: r =>
      match rev r with
      | 93 :: inner_rev =>
          match ipv6_parse (rev inner_rev) with
          | ROk a => ROk ([91] ++ ipv6_serialize a ++ [93])
          | RFail => RFail
          | RUnm => RUnm
          end
      | _ => RFail
      end
  | _ =>
      if existsb (N.eqb 37) h then RUnm
      else
        let d := to_lower h in
        if existsb forbidden_domain d then RFail
        else if existsb (prefixb [120; 110; 45; 45]) (split_on 46 d) then RUnm
        else if ends_in_number d then RUnm
        else ROk d
  end.

Inductive ParseResult :=
| PUrl (protocol hostname : jsstr)
    (* [new URL(u)] succeeds with these [protocol] and [hostname] *)
| PThrows
    (* [new URL(u)] throws *)
| PSchemeOnly (protocol : jsstr)
    (* a scheme other than http and https: [new URL(u)] either throws or
       returns a URL of this [protocol] *)
| PUnmodelled.

(** [new URL(u)] with no base, for inputs of printable ASCII. *)
Definition URL_parse (u : jsstr) : ParseResult :=
  if negb (forallb printable u) then PUnmodelled else
  match u with
  | [] => PThrows
  | c :: _ =>
      if negb (is_alpha c) then PThrows else
      match scheme_split u with
      | None => PThrows
      | Some (sch, rest) =>
          if negb (str_eqb sch (js "http") || str_eqb sch (js "https"))
          then PSchemeOnly (sch ++ [58])
          else
            let (auth, _) := take_until is_auth_end (skip_slashes rest) in
            if existsb (N.eqb 64) auth then PUnmodelled else
            let (h, port) := split_port false auth in
            match h with
            | [] => PThrows
            | _ =>
                match host_parse h with
                | RFail => PThrows
                | RUnm => PUnmodelled
                | ROk hn => if port_ok port then PUrl (sch ++ [58]) hn else PThrows
                end
            end
      end
  end.

(** *** isValidUrl *)

Definition prefix_ci (p s : jsstr) : bool := prefixb (to_lower p) (to_lower s).

(** [/^172\.(1[6-9]|2[0-9]|3[0-1])\./] *)
Definition re_172 (h : jsstr) : bool :=
  match h with
  | 49 :: 55 :: 50 :: 46 :: a :: b :: 46 :: _ =>
      ((a =? 49) && (54 <=? b) && (b <=? 57))
      || ((a =? 50) && is_digit b)
      || ((a =? 51) && ((b =? 48) || (b =? 49)))
  | _ => false
  end.

(** [BLOCKED_PATTERNS], each as its [test]. *)
Definition BLOCKED_PATTERNS : list (jsstr -> bool) :=
  [ prefix_ci (js "localhost");
    prefixb (js "127.");
    prefixb (js "192.168.");
    prefixb (js "10.");
    re_172;
    prefixb (js "0.0.0.0");
    prefix_ci (js "file:");
    prefix_ci (js "ftp:");
    prefix_ci (js "data:");
    prefix_ci (js "javascript:");
    prefix_ci (js "vbscript:") ].

Definition is_web_protocol (p : jsstr) : bool :=
  str_eqb p (js "http:") || str_eqb p (js "https:").

(** [isValidUrl(url)] for a string [url]; [None] when [new URL(url)] is
    outside the modelled fragment. *)
Definition isValidUrl (url : jsstr) : option bool :=
  if negb (truthy url) then Some false
  else if Nat.ltb 2048 (List.length url) then Some false
  else
    match URL_parse url with
    | PThrows => Some false
    | PUnmodelled => None
    | PSchemeOnly p => if is_web_protocol p then None else Some false
    | PUrl p hn =>
        if negb (is_web_protocol p) then Some false
        else
          let hostname := to_lower hn in
          if existsb (fun test => test hostname) BLOCKED_PATTERNS then Some false
          else if str_eqb hostname (js "localhost") || str_eqb hostname (js "127.0.0.1")
                  || str_eqb hostname (js "::1") then Some false
          else if negb (truthy hostname) then Some false
          else Some true
    end.

End Url.

(** ** Format normalization (services/downloadService.js, YtDlpService) *)
Module Analyze.

Local Open Scope Z_scope.

(** One entry of the extractor's [formats] array, with the JSON types
    the extractor emits; JSON numbers are modelled as integers. *)
Record RawFormat := mkRaw {
  format_id : option jsstr;
  ext : option jsstr;
  protocol : option jsstr;
  vcodec : option jsstr;
  acodec : option jsstr;
  width : option Z;
  height : option Z;
  resolution : option jsstr;
  filesize : option Z;
  filesize_approx : option Z
}.

Inductive Kind := Video | Audio.

Definition kind_eqb (a b : Kind) : bool :=
  match a, b with Video, Video | Audio, Audio => true | _, _ => false end.

Definition render_kind (k : Kind) : jsstr :=
  match k with Video => js "video" | Audio => js "audio" end.

(** Truthiness of an optional number ([0] and a missing field are falsy). *)
Definition ntruthy (o : option Z) : bool :=
  match o with Some n => negb (n =? 0) | None => false end.

Definition struthy (o : option jsstr) : bool :=
  match o with Some s => truthy s | None => false end.

(** [String(n)] of an integer below [10^21] in absolute value. *)
Fixpoint pos_digits (fuel : nat) (n : Z) (acc : jsstr) : jsstr :=
  match fuel with
  | O => acc
  | S f => if n <? 10 then Z.to_N (48 + n) :: acc
           else pos_digits f (n / 10) (Z.to_N (48 + n mod 10) :: acc)
  end.

Definition render_num (n : Z) : jsstr :=
  if n <? 0 then 45%N :: pos_digits 32 (- n) [] else pos_digits 32 n [].

(** White space and line terminators, as [trim] and [\s] know them. *)
Definition is_js_space (c : N) : bool :=
  existsb (N.eqb c) [9; 10; 11; 12; 13; 32; 160; 5760; 8232; 8233; 8239;
                     8287; 12288; 65279]%N
  || ((8192 <=? c)%N && (c <=? 8202)%N).

Fixpoint drop_while (p : N -> bool) (s : jsstr) : jsstr :=
  match s with c :: r => if p c then drop_while p r else s | [] => [] end.

Definition trim (s : jsstr) : jsstr :=
  rev (drop_while is_js_space (rev (drop_while is_js_space s))).

(** The value of [containerMap[normalized]]: one of the map's own
    entries, or a member inherited from [Object.prototype]. *)
Inductive ExtVal :=
| EStr (s : jsstr)
| EInherited (name : jsstr).

Definition ext_eqb (a b : ExtVal) : bool :=
  match a, b with
  | EStr x, EStr y => str_eqb x y
  | EInherited x, EInherited y => str_eqb x y
  | _, _ => false
  end.

Definition object_prototype_members : list jsstr :=
  [js "constructor"; js "__defineGetter__"; js "__defineSetter__";
   js "hasOwnProperty"; js "__lookupGetter__"; js "__lookupSetter__";
   js "isPrototypeOf"; js "propertyIsEnumerable"; js "toString";
   js "valueOf"; js "__proto__"; js "toLocaleString"].

(** [`${v}`] of the looked-up value. *)
Definition render_ext (e : ExtVal) : jsstr :=
  match e with
  | EStr s => s
  | EInherited n =>
      if str_eqb n (js "__proto__") then js "[object Object]"
      else if str_eqb n (js "constructor")
      then js "function Object() { [native code] }"
      else js "function " ++ n ++ js "() { [native code] }"
  end.

Section Lowering.

(** [String.prototype.toLowerCase], Unicode's full case mapping, is left
    abstract: what follows holds for every lower-casing function.
    [Url.to_lower], the mapping of the ASCII letters, agrees with it on
    ASCII strings. *)
Variable toLowerCase : jsstr -> jsstr.

(** [normalizeContainerType(ext)] *)
Definition normalizeContainerType (e : jsstr) : ExtVal :=
  let normalized := trim (toLowerCase e) in
  if str_eqb normalized (js "m4a") then EStr (js "mp4")
  else if str_eqb normalized (js "m4v") then EStr (js "mp4")
  else if str_eqb normalized (js "webma") then EStr (js "webm")
  else if str_eqb normalized (js "webmv") then EStr (js "webm")
  else if str_eqb normalized (js "ogg") then EStr (js "opus")
  else if existsb (str_eqb normalized) object_prototype_members
  then EInherited normalized
  else EStr normalized.

Definition includes_char (c : N) (s : jsstr) : bool := existsb (N.eqb c) s.

Definition ends_with_char (c : N) (s : jsstr) : bool :=
  match rev s with d :: _ => (d =? c)%N | [] => false end.

(** [normalizeResolution(format, type)] *)
Definition normalizeResolution (f : RawFormat) (type : Kind) : jsstr :=
  match type with
  | Audio => js "audio"
  | Video =>
      let from_string :=
        match resolution f with
        | Some r =>
            if truthy r && negb (str_eqb r (js "unknown")) then
              let res := trim r in
              if includes_char 120 res then Some res
              else if ends_with_char 112 res then Some res
              else None
            else None
        | None => None
        end in
      match from_string with
      | Some res => res
      | None =>
          match width f, height f with
          | Some w, Some h =>
              if negb (w =? 0) && negb (h =? 0)
              then render_num w ++ js "x" ++ render_num h
              else if negb (h =? 0) then render_num h ++ js "p"
              else js "unknown"
          | _, Some h =>
              if negb (h =? 0) then render_num h ++ js "p" else js "unknown"
          | _, None => js "unknown"
          end
      end
  end.

(** The result of [normalizeFileSize]: [formatFileSize(filesize)],
    ["~" + formatFileSize(filesize_approx)], or ['unknown'].  The text of
    [formatFileSize] ("<number> <unit>") is left abstract: only its
    comparison with ['unknown'] is used, and it never equals it. *)
Inductive FileSize := FSExact (bytes : Z) | FSApprox (bytes : Z) | FSUnknown.

Definition normalizeFileSize (fs fa : option Z) : FileSize :=
  match fs with
  | Some n => if negb (n =? 0) && (0 <? n) then FSExact n else
              match fa with
              | Some m => if negb (m =? 0) && (0 <? m) then FSApprox m else FSUnknown
              | None => FSUnknown
              end
  | None =>
      match fa with
      | Some m => if negb (m =? 0) && (0 <? m) then FSApprox m else FSUnknown
      | None => FSUnknown
      end
  end.

Definition is_unknown (f : FileSize) : bool :=
  match f with FSUnknown => true | _ => false end.

(** An entry of [processedFormats]. *)
Record Format := mkFormat {
  fmt_format_id : jsstr;
  fmt_ext : ExtVal;
  fmt_resolution : jsstr;
  fmt_filesize : FileSize;
  fmt_type : Kind
}.

(** [`${type}-${normalizedExt}-${resolution}`] *)
Definition formatKey (type : Kind) (e : ExtVal) (res : jsstr) : jsstr :=
  render_kind type ++ js "-" ++ render_ext e ++ js "-" ++ res.

Definition triple (f : Format) : Kind * ExtVal * jsstr :=
  (fmt_type f, fmt_ext f, fmt_resolution f).

Fixpoint findIndex {A} (p : A -> bool) (l : list A) : option nat :=
  match l with
  | [] => None
  | x :: r => if p x then Some O else option_map S (findIndex p r)
  end.

(** [arr[i] = v] for an index inside the array. *)
Fixpoint replace_nth {A} (i : nat) (v : A) (l : list A) : list A :=
  match l, i with
  | [], _ => []
  | _ :: r, O => v :: r
  | x :: r, S i' => x :: replace_nth i' v r
  end.

Record Acc := mkAcc { processedFormats : list Format; seenFormats : list jsstr }.

Definition has_video (f : RawFormat) : bool :=
  match vcodec f with Some v => truthy v && negb (str_eqb v (js "none")) | None => false end.
Definition has_audio (f : RawFormat) : bool :=
  match acodec f with Some v => truthy v && negb (str_eqb v (js "none")) | None => false end.

(** One iteration of the [for (const format of rawFormats)] loop. *)
Definition process_format (acc : Acc) (f : RawFormat) : Acc :=
  match format_id f, ext f with
  | Some fid, Some e =>
      if negb (truthy fid) || negb (truthy e) then acc
      else if str_eqb e (js "m3u8")
              || (match protocol f with Some p => str_eqb p (js "m3u8_native") | None => false end)
      then acc
      else
        let hasVideo := has_video f in
        let hasAudio := has_audio f in
        if negb hasVideo && negb hasAudio then acc
        else if hasVideo && negb (ntruthy (height f)) && negb (ntruthy (width f))
                && negb (struthy (resolution f)) then acc
        else
          let type := if hasVideo then Video else Audio in
          let normalizedExt := normalizeContainerType e in
          let res := normalizeResolution f type in
          let fsize := normalizeFileSize (filesize f) (filesize_approx f) in
          let key := formatKey type normalizedExt res in
          let entry := mkFormat fid normalizedExt res fsize type in
          if existsb (str_eqb key) (seenFormats acc) then
            match findIndex (fun g => kind_eqb (fmt_type g) type
                                      && ext_eqb (fmt_ext g) normalizedExt
                                      && str_eqb (fmt_resolution g) res)
                    (processedFormats acc) with
            | Some i =>
                match nth_error (processedFormats acc) i with
                | Some existing =>
                    if negb (is_unknown fsize) && is_unknown (fmt_filesize existing)
                    then mkAcc (replace_nth i entry (processedFormats acc)) (seenFormats acc)
                    else acc
                | None => acc
                end
            | None => acc
            end
          else mkAcc (processedFormats acc ++ [entry]) (seenFormats acc ++ [key])
  | _, _ => acc
  end.

(** [extractResolutionValue(resolution)]: [parseInt] of the first run of
    digits ([/(\d+)p?/]), or 0. *)
Fixpoint take_digits (s : jsstr) : jsstr :=
  match s with c :: r => if Url.is_digit c then c :: take_digits r else [] | [] => [] end.

Fixpoint first_digits (s : jsstr) : option jsstr :=
  match s with
  | [] => None
  | c :: r => if Url.is_digit c then Some (take_digits s) else first_digits r
  end.

Definition extractResolutionValue (r : jsstr) : Double.jsnum :=
  match first_digits r with
  | Some ds => Double.parse_int (Z.of_N (Url.digits_value ds))
  | None => Double.JFin 0
  end.

(** The comparator given to [processedFormats.sort], up to the sign of
    [resB - resA]. *)
Definition compare_formats (a b : Format) : Z :=
  if negb (kind_eqb (fmt_type a) (fmt_type b)) then
    (if kind_eqb (fmt_type a) Video then -1 else 1)
  else Double.sub_sign (extractResolutionValue (fmt_resolution b))
         (extractResolutionValue (fmt_resolution a)).

(** [Array.prototype.sort] is stable; with a consistent comparator its
    result is the stable sorted permutation, computed here by insertion. *)
Fixpoint insert (x : Format) (l : list Format) : list Format :=
  match l with
  | [] => [x]
  | y :: r => if compare_formats x y <? 0 then x :: l else y :: insert x r
  end.

Definition sort_formats (l : list Format) : list Format :=
  fold_left (fun acc x => insert x acc) l [].

(** The [formats] field of [normalizeResponse(info)], for
    [info.formats] given as an optional array. *)
Definition normalizeResponse_formats (formats : option (list RawFormat)) : list Format :=
  let rawFormats := match formats with Some l => l | None => [] end in
  sort_formats (processedFormats (fold_left process_format rawFormats (mkAcc [] []))).

End Lowering.

End Analyze.

(** ** Header-safe file names (utils/safeFilename.js) *)
Module Filename.

Local Open Scope N_scope.

(** [\w]: ASCII letters, digits and [_]. *)
Definition is_word (c : N) : bool := Url.is_alpha c || Url.is_digit c || (c =? 95).

(** The characters [[\w\s.-]] kept by the first replacement. *)
Definition keep (c : N) : bool :=
  is_word c || Analyze.is_js_space c || (c =? 46) || (c =? 45).

(** [.replace(/[^\w\s.-]/g, '')] (code unit by code unit: no [u] flag). *)
Definition remove_special (s : jsstr) : jsstr := filter keep s.

(** Every maximal run of characters satisfying [p] replaced by [r];
    [inrun] tells whether the previous character was in a run. *)
Fixpoint replace_runs (p : N -> bool) (r : N) (inrun : bool) (s : jsstr) : jsstr :=
  match s with
  | [] => []
  | c :: t =>
      if p c then (if inrun then replace_runs p r true t else r :: replace_runs p r true t)
      else c :: replace_runs p r false t
  end.

(** [.replace(/\s+/g, '_')] *)
Definition collapse_spaces (s : jsstr) : jsstr :=
  replace_runs Analyze.is_js_space 95 false s.

(** [.replace(/_{2,}/g, '_')]: a run of two or more [_] becomes one; a
    single [_] is left as it is, so every run ends as one [_]. *)
Definition collapse_underscores (s : jsstr) : jsstr :=
  replace_runs (N.eqb 95) 95 false s.

(** [_+$]: the trailing run of [_]. *)
Fixpoint drop_trailing (p : N -> bool) (s : jsstr) : jsstr :=
  match s with
  | [] => []
  | c :: t =>
      let t' := drop_trailing p t in
      match t' with
      | [] => if p c then [] else [c]
      | _ => c :: t'
      end
  end.

(** [.replace(/^_+|_+$/g, '')] *)
Definition trim_underscores (s : jsstr) : jsstr :=
  drop_trailing (N.eqb 95) (Analyze.drop_while (N.eqb 95) s).

(** [safeFilename(name)] for a string [name]. *)
Definition safeFilename (name : jsstr) : jsstr :=
  if negb (truthy name) then js "download"
  else
    let r := Analyze.trim (firstn 100
               (trim_underscores (collapse_underscores
                  (collapse_spaces (remove_special name))))) in
    if truthy r then r else js "download".

End Filename.

(** ** The remaining operations of QueueService *)
Module QueueMore.
Import Queue.
Local Open Scope Z_scope.

(** [job.inputFile = inputFile] *)
Definition set_inputFile (f : jsstr) (j : QueueJob) : QueueJob :=
  mkJob (id j) (type j) (url j) (formatId j) (targetFormat j) (Some f)
    (dependsOn j) (status j) (createdAt j) (startedAt j) (completedAt j)
    (error j) (downloadId j) (progress j).

(** [setConvertJobInputFile(convertJobId, inputFile)] *)
Definition setConvertJobInputFile (s : QState) (x f : jsstr) : bool * QState :=
  match lookup x (jobs s) with
  | None => (false, s)
  | Some j =>
      if negb (jobtype_eqb (type j) Convert) then (false, s)
      else (true, upd_jobs s (update x (set_inputFile f) (jobs s)))
  end.

(** [getJob(jobId)] and [getAllJobs()] *)
Definition getJob (s : QState) (x : jsstr) : option QueueJob := lookup x (jobs s).

Definition getAllJobs (s : QState) : list QueueJob := jobs s.

(** The object returned by [getQueueState()]. *)
Record QueueState := mkQueueState {
  qs_jobs : list QueueJob;
  qs_queue : list jsstr;
  processing : option jsstr;
  queuedCount : nat;
  processingCount : nat;
  completedCount : nat;
  failedCount : nat
}.

(** [getQueueState()] *)
Definition getQueueState (s : QState) : QueueState :=
  let js := getAllJobs s in
  mkQueueState js (queue s) (activeJob s)
    (List.length (filter (fun j => status_eqb (status j) Queued) js))
    (List.length (filter (fun j => status_eqb (status j) Downloading
                                   || status_eqb (status j) Converting) js))
    (List.length (filter (fun j => status_eqb (status j) Completed) js))
    (List.length (filter (fun j => status_eqb (status j) Failed) js)).

(** The condition of [cleanupOldJobs]: a terminal job whose [completedAt]
    (a [Date], always truthy when set) is more than [maxAge] ago. *)
Definition is_old (maxAge now : Z) (j : QueueJob) : bool :=
  (status_eqb (status j) Completed || status_eqb (status j) Failed)
  && match completedAt j with
     | Some c => maxAge <? now - c
     | None => false
     end.

(** [cleanupOldJobs(maxAge)] at time [now]: deleting the current entry
    while iterating a [Map] visits every other entry once, so the loop
    keeps exactly the entries that fail the test; the queue and
    [activeJob] are not touched. *)
Definition cleanupOldJobs (s : QState) (maxAge now : Z) : QState :=
  upd_jobs s (filter (fun j => negb (is_old maxAge now j)) (jobs s)).

(** All public operations, with the two above. *)
Inductive step_all : QState -> QState -> Prop :=
| StCore s s' : step s s' -> step_all s s'
| StSetInput s x f : step_all s (snd (setConvertJobInputFile s x f))
| StCleanup s maxAge now : step_all s (cleanupOldJobs s maxAge now).

Inductive reachable_all : QState -> Prop :=
| reach_all_init : reachable_all empty
| reach_all_step s s' : reachable_all s -> step_all s s' -> reachable_all s'.

End QueueMore.

(** ** The session cleanup of ProgressService *)
Module ProgressMore.
Import Progress.
Local Open Scope Z_scope.

(** [sessionTimeout = 30 * 60 * 1000] *)
Definition sessionTimeout : Z := 30 * 60 * 1000.

(** [getSession(downloadId)] *)
Definition getSession (b : Bus) (dl : jsstr) : option DownloadSession := get dl b.

(** [status === 'completed' || status === 'error' || status === 'cancelled'] *)
Definition is_terminal (st : PStatus) : bool :=
  pstatus_eqb st PCompleted || pstatus_eqb st PError || pstatus_eqb st PCancelled.

(** [cleanupSessions()] at time [now] (the timer runs it every 5 minutes). *)
Definition cleanupSessions (b : Bus) (now : Z) : Bus :=
  mkBus
    (filter (fun kv =>
               negb ((sessionTimeout <? now - sess_createdAt (snd kv))
                     && is_terminal (status (sess_progress (snd kv)))))
       (sessions b))
    (emitted b).

End ProgressMore.

(** ** Format helpers of ConversionService and DownloadService *)
Module Conversion.
Import Queue.
Local Open Scope N_scope.

(** The lowercase names below contain no letter that a non-ASCII code
    point lowercases to, so comparing [toLowerCase()] with them only
    needs the ASCII case mapping [Url.to_lower]. *)

(** [isValidFormat(format)] *)
Definition isValidFormat (format : jsstr) : bool :=
  existsb (str_eqb (Url.to_lower format)) [js "mp3"; js "mp4"; js "webm"; js "aac"].

(** [getFfmpegArgs(targetFormat)]; the thrown [Error]'s message. *)
Definition getFfmpegArgs (targetFormat : jsstr) : outcome (list jsstr) :=
  let format := Url.to_lower targetFormat in
  if str_eqb format (js "mp3") then
    Returns [js "-i"; js "pipe:0"; js "-vn"; js "-acodec"; js "libmp3lame";
             js "-ab"; js "192k"; js "-ar"; js "44100"; js "-f"; js "mp3";
             js "pipe:1"]
  else if str_eqb format (js "aac") then
    Returns [js "-i"; js "pipe:0"; js "-vn"; js "-acodec"; js "aac";
             js "-ab"; js "192k"; js "-ar"; js "44100"; js "-f"; js "adts";
             js "pipe:1"]
  else if str_eqb format (js "mp4") then
    Returns [js "-i"; js "pipe:0"; js "-c"; js "copy"; js "-f"; js "mp4";
             js "-movflags"; js "frag_keyframe+empty_moov"; js "pipe:1"]
  else if str_eqb format (js "webm") then
    Returns [js "-i"; js "pipe:0"; js "-c"; js "copy"; js "-f"; js "webm";
             js "pipe:1"]
  else Throws (js "Unsupported conversion format: " ++ targetFormat).

(** [getContentType(format)]: [contentTypeMap[formatLower]], one of the
    map's own entries or a member inherited from [Object.prototype]
    (always truthy), else ['application/octet-stream']. *)
Definition getContentType (format : jsstr) : Analyze.ExtVal :=
  let formatLower := Url.to_lower format in
  if str_eqb formatLower (js "mp3") then Analyze.EStr (js "audio/mpeg")
  else if str_eqb formatLower (js "mp4") then Analyze.EStr (js "video/mp4")
  else if str_eqb formatLower (js "webm") then Analyze.EStr (js "video/webm")
  else if str_eqb formatLower (js "aac") then Analyze.EStr (js "audio/aac")
  else if existsb (str_eqb formatLower) Analyze.object_prototype_members
  then Analyze.EInherited formatLower
  else Analyze.EStr (js "application/octet-stream").

(** The class of the first replacement: less-than, greater-than, colon,
    double quote, slash, backslash, bar, question mark and asterisk. *)
Definition invalid_char (c : N) : bool :=
  existsb (N.eqb c) [60; 62; 58; 34; 47; 92; 124; 63; 42].

(** [sanitizeFilename(filename)] of ConversionService and of
    DownloadService (the same code): the class above replaced by [_],
    then [.replace(/\s+/g, '_')], then [.substring(0, 200)]. *)
Definition sanitizeFilename (filename : jsstr) : jsstr :=
  firstn 200
    (Filename.collapse_spaces
       (map (fun c => if invalid_char c then 95 else c) filename)).

End Conversion.

(** ** formatDuration of YtDlpService (services/downloadService.js) *)
Module Duration.
Local Open Scope Z_scope.

(** [s.padStart(2, '0')] *)
Definition padStart2 (s : jsstr) : jsstr :=
  if (List.length s <? 2)%nat then repeat 48%N (2 - List.length s) ++ s else s.

(** [formatDuration(seconds)] for a whole number of seconds: [%] is the
    truncated remainder [Z.rem] (exact on doubles), the divisions are
    rounded to doubles before [Math.floor]. *)
Definition formatDuration (seconds : Z) : jsstr :=
  let hours := Double.math_floor (Double.div seconds 3600) in
  let minutes := Double.math_floor (Double.div (Z.rem seconds 3600) 60) in
  let secs := Z.rem seconds 60 in
  if 0 <? hours then
    Analyze.render_num hours ++ js ":" ++ padStart2 (Analyze.render_num minutes)
    ++ js ":" ++ padStart2 (Analyze.render_num secs)
  else Analyze.render_num minutes ++ js ":" ++ padStart2 (Analyze.render_num secs).

End Duration.

(** ** Runs of the queue and of the analyzer used by the witnesses below *)
Module QueueRuns.
Import Queue QueueScenarios.
Local Open Scope Z_scope.

(** The job stored under [x], or a placeholder when there is none. *)
Definition job_of (s : QState) (x : jsstr) : QueueJob :=
  match lookup x (jobs s) with
  | Some j => j
  | None => mkJob x Download [] None None None None Queued 0 None None None None None
  end.

(** Download job "a" started and completed, convert job "c" still queued
    behind it. *)
Definition sDone : QState :=
  completeJob (snd (startJob sDC (js "a") (js "a") 2)) (js "a") 5.

(** Download job "a" started, then failed; nothing queued. *)
Definition sFailedA : QState :=
  failJob (snd (startJob sA (js "a") (js "a") 2)) (js "a") (js "boom") 3.


End QueueRuns.


(** * Rounding of doubles *)
Module DoubleFacts.
Import Double.
Local Open Scope Z_scope.

Lemma round_even_cases (a d : Z) : 0 < d ->
  round_even a d = a / d \/ (round_even a d = a / d + 1 /\ 0 < a mod d).
Proof.
  intros Hd. unfold round_even.
  pose proof (Z.mod_pos_bound a d Hd).
  destruct (2 * (a mod d) <? d) eqn:E1; [left; reflexivity|].
  apply Z.ltb_ge in E1.
  destruct (d <? 2 * (a mod d)); [right; split; [reflexivity|lia]|].
  destruct (Z.even (a / d)); [left; reflexivity| right; split; [reflexivity|lia]].
Qed.

Lemma round_even_le (a d N : Z) : 0 < d -> a <= N * d -> round_even a d <= N.
Proof.
  intros Hd Ha.
  pose proof (Z.div_mod a d ltac:(lia)). pose proof (Z.mod_pos_bound a d Hd).
  destruct (round_even_cases a d Hd) as [E|[E Hr]]; rewrite E; nia.
Qed.

Lemma round_even_ge (a d N : Z) : 0 < d -> N * d <= a -> N <= round_even a d.
Proof.
  intros Hd Ha.
  pose proof (Z.div_mod a d ltac:(lia)). pose proof (Z.mod_pos_bound a d Hd).
  destruct (round_even_cases a d Hd) as [E|[E Hr]]; rewrite E; nia.
Qed.

Lemma round_even_lt (a d N : Z) : 0 < d -> 2 * a < (2 * N - 1) * d ->
  round_even a d <= N - 1.
Proof.
  intros Hd Ha. unfold round_even.
  pose proof (Z.div_mod a d ltac:(lia)). pose proof (Z.mod_pos_bound a d Hd).
  set (q := a / d) in *. set (r := a mod d) in *.
  destruct (2 * r <? d) eqn:E1; [nia|].
  apply Z.ltb_ge in E1.
  assert (q + 1 <= N - 1) by nia.
  destruct (d <? 2 * r); [lia|]. destruct (Z.even q); lia.
Qed.

Lemma den_pos (x : dbl) : 0 < den x.
Proof. unfold den. apply Z.pow_pos_nonneg; lia. Qed.

Lemma flog2_le (p q : Z) : flog2 p q <= Z.log2 p - Z.log2 q.
Proof. unfold flog2. destruct (_ <=? _); lia. Qed.

(** A nonnegative quotient at most [N], with [N] below [2^52], rounds to a
    value at most [N]: [0 <= num <= N * den]. *)
Lemma rn_le (p q N : Z) : 0 <= p -> 0 < q -> 0 <= N < 2 ^ 52 -> p <= N * q ->
  0 <= num (rn p q) <= N * den (rn p q).
Proof.
  intros Hp Hq HN Hpq. unfold rn.
  destruct (Z.abs p =? 0) eqn:E0.
  { unfold num, den; cbn [mant expo]. simpl. lia. }
  apply Z.eqb_neq in E0. rewrite Z.abs_eq in * by lia.
  assert (Hp0 : 0 < p) by lia.
  assert (HN0 : 0 < N) by nia.
  set (e := Z.max (flog2 p q - 52) (-1074)).
  assert (He : e <= 0).
  { pose proof (flog2_le p q).
    assert (Z.log2 p <= Z.log2 N + Z.log2 q + 1).
    { etransitivity; [apply Z.log2_le_mono; exact Hpq|].
      apply Z.log2_mul_above; lia. }
    assert (Z.log2 N < 52) by (apply Z.log2_lt_pow2; lia).
    unfold e. lia. }
  unfold num, den; cbn [mant expo].
  rewrite (Z.max_l 0 e) by lia. rewrite (Z.max_r 0 (- e)) by lia.
  rewrite Z.sgn_pos by lia. rewrite Z.pow_0_r, !Z.mul_1_r, Z.mul_1_l.
  assert (HD : 0 < 2 ^ (- e)) by (apply Z.pow_pos_nonneg; lia).
  split.
  - apply (round_even_ge _ _ 0); nia.
  - apply round_even_le; nia.
Qed.

Lemma rn_nonpos (p q : Z) : p <= 0 -> 0 < q -> num (rn p q) <= 0.
Proof.
  intros Hp Hq. unfold rn.
  destruct (Z.abs p =? 0) eqn:E0.
  { unfold num; cbn [mant expo]. lia. }
  apply Z.eqb_neq in E0.
  set (e := Z.max (flog2 (Z.abs p) q - 52) (-1074)).
  unfold num; cbn [mant expo].
  rewrite Z.sgn_neg by lia.
  assert (0 <= round_even (Z.abs p * 2 ^ Z.max 0 (- e)) (q * 2 ^ Z.max 0 e)).
  { apply (round_even_ge _ _ 0).
    - assert (0 < 2 ^ Z.max 0 e) by (apply Z.pow_pos_nonneg; lia). nia.
    - assert (0 < 2 ^ Z.max 0 (- e)) by (apply Z.pow_pos_nonneg; lia). nia. }
  assert (0 < 2 ^ Z.max 0 e) by (apply Z.pow_pos_nonneg; lia). nia.
Qed.

(** Division of a safe integer by a moderate positive divisor, followed by
    [Math.floor], is the exact integer quotient. *)
Lemma floor_rn (p q : Z) : 0 <= p < 2 ^ 53 -> 0 < q < 2 ^ 1000 ->
  math_floor (rn p q) = p / q.
Proof.
  intros Hp Hq. unfold math_floor, rn.
  destruct (Z.abs p =? 0) eqn:E0.
  { apply Z.eqb_eq in E0. assert (p = 0) by lia. subst p.
    unfold num, den; cbn [mant expo]. rewrite Z.div_0_l by lia. reflexivity. }
  apply Z.eqb_neq in E0. rewrite Z.abs_eq in * by lia.
  set (e := Z.max (flog2 p q - 52) (-1074)).
  assert (Hl : Z.log2 q < 1000) by (apply Z.log2_lt_pow2; lia).
  assert (He : e <= - Z.log2 q).
  { pose proof (flog2_le p q).
    assert (Z.log2 p < 53) by (apply Z.log2_lt_pow2; lia).
    unfold e. lia. }
  assert (Hq2 : q < 2 * 2 ^ (- e)).
  { destruct (Z.log2_spec q ltac:(lia)) as [_ H2].
    rewrite Z.pow_succ_r in H2 by (apply Z.log2_nonneg).
    assert (2 ^ Z.log2 q <= 2 ^ (- e)) by (apply Z.pow_le_mono_r; lia).
    lia. }
  unfold num, den; cbn [mant expo].
  pose proof (Z.log2_nonneg q).
  rewrite (Z.max_l 0 e) by lia. rewrite (Z.max_r 0 (- e)) by lia.
  rewrite Z.sgn_pos by lia. rewrite Z.pow_0_r, !Z.mul_1_r, Z.mul_1_l.
  set (D := 2 ^ (- e)) in *.
  assert (HD : 0 < D) by (apply Z.pow_pos_nonneg; lia).
  set (h := p / q).
  pose proof (Z.div_mod p q ltac:(lia)). pose proof (Z.mod_pos_bound p q ltac:(lia)).
  fold h in H0.
  set (m := round_even (p * D) q).
  assert (Hlo : h * D <= m) by (apply round_even_ge; nia).
  assert (Hhi : m <= (h + 1) * D - 1) by (apply round_even_lt; nia).
  symmetry. apply (Z.div_unique_pos _ _ _ (m - h * D)); lia.
Qed.

Lemma floor_div_nonneg (p q : Z) : 0 <= p < 2 ^ 53 -> 0 < q < 2 ^ 1000 ->
  math_floor (div p q) = p / q.
Proof.
  intros Hp Hq; unfold div.
  replace (q <? 0) with false by (symmetry; apply Z.ltb_ge; lia).
  apply floor_rn; assumption.
Qed.

End DoubleFacts.

(** * Proofs about the scheduler *)
Module QueueProofs.
Import Queue.

(** Every job in an active status is the one named by [activeJob]. *)
Definition ActOK (l : list QueueJob) (a : option jsstr) : Prop :=
  forall j, In j l -> is_active (status j) = true -> a = Some (id j).

Definition Inv (s : QState) : Prop :=
  NoDup (map id (jobs s)) /\ ActOK (jobs s) (activeJob s).

Lemma processQueue_jobs : forall s, jobs (processQueue s) = jobs s.
Proof. intros [l q a]; unfold processQueue; simpl; destruct a; reflexivity. Qed.

Lemma processQueue_active : forall s,
  activeJob (processQueue s) = activeJob s.
Proof. intros [l q a]; unfold processQueue; simpl; destruct a; reflexivity. Qed.

Lemma Inv_processQueue : forall s, Inv s -> Inv (processQueue s).
Proof.
  intros s [H1 H2]; split;
    rewrite ?processQueue_jobs, ?processQueue_active; assumption.
Qed.

Lemma map_id_map : forall (g : QueueJob -> QueueJob) l,
  (forall j, id (g j) = id j) -> map id (map g l) = map id l.
Proof.
  intros g l Hg; rewrite map_map; apply map_ext; auto.
Qed.

Lemma actok_map : forall (g : QueueJob -> QueueJob) l a,
  (forall j, is_active (status (g j)) = true ->
             is_active (status j) = true /\ id (g j) = id j) ->
  ActOK l a -> ActOK (map g l) a.
Proof.
  intros g l a Hg Hok j' Hin Hact.
  apply in_map_iff in Hin as [j [<- Hj]].
  destruct (Hg j Hact) as [Ha Hid]; rewrite Hid; auto.
Qed.

Lemma clear_active_other : forall y x,
  y <> x -> clear_active (Some y) x = Some y.
Proof.
  intros y x Hne; simpl; apply str_eqb_neq in Hne; rewrite Hne; reflexivity.
Qed.

(** A terminal assignment to the job [x]. *)
Lemma actok_terminal : forall x f l a a',
  (forall j, id (f j) = id j /\ is_active (status (f j)) = false) ->
  ActOK l a -> (a' = a \/ a' = clear_active a x) ->
  ActOK (update x f l) a'.
Proof.
  intros x f l a a' Hf Hok Ha' j' Hin Hact.
  unfold update in Hin; apply in_map_iff in Hin as [j [Hj Hjin]].
  destruct (str_eqb (id j) x) eqn:E.
  - subst j'; destruct (Hf j) as [_ Hn]; congruence.
  - subst j'; apply str_eqb_neq in E.
    specialize (Hok j Hjin Hact).
    destruct Ha' as [-> | ->]; [assumption|].
    rewrite Hok; apply clear_active_other; assumption.
Qed.

Lemma fail_deps_loop_fst : forall d err now l q,
  fst (fail_deps_loop d err now l q)
  = map (fun j => if is_dependent d j then set_failed (Some err) now j else j) l.
Proof.
  induction l as [|j l IH]; intros q; simpl; [reflexivity|].
  set (q1 := if is_dependent d j then remove_first (id j) q else q).
  specialize (IH q1).
  destruct (fail_deps_loop d err now l q1) as [r q2]; simpl in *.
  rewrite IH; reflexivity.
Qed.

Definition dep_fail (d err : jsstr) (now : Z) (j : QueueJob) : QueueJob :=
  if is_dependent d j then set_failed (Some err) now j else j.

Lemma failDependentJobs_jobs : forall s d err now,
  jobs (failDependentJobs s d err now) = map (dep_fail d err now) (jobs s).
Proof.
  intros s d err now; unfold failDependentJobs.
  pose proof (fail_deps_loop_fst d err now (jobs s) (queue s)) as H.
  destruct (fail_deps_loop d err now (jobs s) (queue s)); simpl in *; auto.
Qed.

Lemma failDependentJobs_active : forall s d err now,
  activeJob (failDependentJobs s d err now) = activeJob s.
Proof.
  intros s d err now; unfold failDependentJobs.
  destruct (fail_deps_loop d err now (jobs s) (queue s)); reflexivity.
Qed.

Lemma dep_fail_ok : forall d err now j,
  is_active (status (dep_fail d err now j)) = true ->
  is_active (status j) = true /\ id (dep_fail d err now j) = id j.
Proof.
  intros d err now j; unfold dep_fail; destruct (is_dependent d j);
    simpl; [discriminate|auto].
Qed.

Lemma dep_fail_id : forall d err now j, id (dep_fail d err now j) = id j.
Proof. intros; unfold dep_fail; destruct (is_dependent d j); reflexivity. Qed.

Lemma set_completed_term : forall now j,
  id (set_completed now j) = id j
  /\ is_active (status (set_completed now j)) = false.
Proof. auto. Qed.

Lemma set_failed_term : forall e now j,
  id (set_failed e now j) = id j
  /\ is_active (status (set_failed e now j)) = false.
Proof. auto. Qed.

Lemma update_id : forall x f l,
  (forall j, id (f j) = id j) -> map id (update x f l) = map id l.
Proof.
  intros x f l Hf; unfold update; apply map_id_map.
  intros j; destruct (str_eqb (id j) x); auto.
Qed.

Lemma update_progress_ok : forall x p l a,
  ActOK l a -> ActOK (update x (set_progress p) l) a.
Proof.
  intros x p l a; unfold update; apply actok_map.
  intros j; destruct (str_eqb (id j) x); simpl; auto.
Qed.

Lemma lookup_none : forall x l, lookup x l = None -> ~ In x (map id l).
Proof.
  intros x l H Hin; apply in_map_iff in Hin as [j [Hj Hjin]].
  unfold lookup in H; eapply find_none in H; [|exact Hjin].
  rewrite Hj, str_eqb_refl in H; discriminate.
Qed.

Lemma lookup_some : forall x l j, lookup x l = Some j -> In j l /\ id j = x.
Proof.
  intros x l j H; unfold lookup in H; apply find_some in H as [Hin He].
  apply str_eqb_eq in He; auto.
Qed.

Lemma Inv_append : forall l a j,
  NoDup (map id l) -> ActOK l a -> ~ In (id j) (map id l) ->
  is_active (status j) = false ->
  NoDup (map id (l ++ [j])) /\ ActOK (l ++ [j]) a.
Proof.
  intros l a j Hnd Hok Hni Hq; split.
  - rewrite map_app; simpl.
    apply NoDup_app; auto using NoDup_cons, NoDup_nil.
    intros y Hy [<- | []]; contradiction.
  - intros j' Hin Hact; apply in_app_iff in Hin as [Hin | [<- | []]];
      [auto | congruence].
Qed.

Lemma Inv_finish : forall s x,
  NoDup (map id (jobs s)) -> ActOK (jobs s) (clear_active (activeJob s) x) ->
  Inv (finishJob s x).
Proof.
  intros s x H1 H2; unfold finishJob; apply Inv_processQueue; split; auto.
Qed.

(** The marking part of a failure: the job fails, then its dependents,
    then [finishJob]. *)
Lemma fail_mark_ok : forall l q a x e now (isdl : bool) d err,
  NoDup (map id l) -> ActOK l a ->
  Inv (finishJob (if isdl then failDependentJobs
                                 (mkQ (update x (set_failed e now) l) q a)
                                 d err now
                  else mkQ (update x (set_failed e now) l) q a) x).
Proof.
  intros l q a x e now isdl d err Hnd Hok.
  assert (Hnd2 : NoDup (map id (update x (set_failed e now) l))).
  { rewrite update_id; auto. }
  assert (Hok2 : ActOK (update x (set_failed e now) l) (clear_active a x)).
  { apply actok_terminal with (a := a); auto using set_failed_term. }
  apply Inv_finish; destruct isdl.
  - rewrite failDependentJobs_jobs, map_id_map; auto using dep_fail_id.
  - exact Hnd2.
  - rewrite failDependentJobs_jobs, failDependentJobs_active.
    apply actok_map; auto using dep_fail_ok.
  - exact Hok2.
Qed.

Lemma onProgress_inv : forall s p now, Inv s -> Inv (onProgress s p now).
Proof.
  intros s p now [Hnd Hok]; unfold onProgress.
  destruct (find_by_download (Progress.downloadId p) (jobs s)) as [j|];
    [|split; auto].
  set (pr := mkJobProgress _ _ _).
  set (s1 := upd_jobs s (update (id j) (set_progress pr) (jobs s))).
  assert (Hnd1 : NoDup (map id (jobs s1))).
  { simpl; rewrite update_id; auto. }
  assert (Hok1 : ActOK (jobs s1) (activeJob s1)).
  { apply update_progress_ok; auto. }
  destruct (Progress.status p).
  - split; auto.
  - destruct (is_active (status j)); [|split; auto].
    destruct (jobtype_eqb (type j) Download); unfold notifyDependentJobs;
      apply Inv_finish; simpl; try (rewrite update_id; auto);
      apply actok_terminal with (a := activeJob s1); auto using set_completed_term.
  - exact (fail_mark_ok (jobs s1) (queue s1) (activeJob s1) (id j)
                (Progress.error p) now (jobtype_eqb (type j) Download) (id j)
                (js "Dependency failed: " ++ render_opt (Progress.error p))
                Hnd1 Hok1).
  - split; auto.
Qed.

Lemma onProgress_cancelled_active : forall s p now,
  Progress.status p = Progress.PCancelled ->
  activeJob (onProgress s p now) = activeJob s.
Proof.
  intros s p now Hp; unfold onProgress.
  destruct (find_by_download _ _); [rewrite Hp|]; reflexivity.
Qed.

Lemma startJob_inv : forall s x dl now, Inv s -> Inv (snd (startJob s x dl now)).
Proof.
  intros s x dl now HI; unfold startJob.
  destruct (lookup x (jobs s)) as [j|]; [|exact HI].
  destruct (activeJob s) as [a|] eqn:Ha; simpl; [exact HI|].
  destruct (head_is (queue s) x); simpl; [|exact HI].
  destruct (canJobStart s j); simpl; [|exact HI].
  destruct HI as [Hnd Hok]; rewrite Ha in Hok.
  split; simpl.
  - rewrite update_id; auto.
  - intros j' Hin Hact; unfold update in Hin.
    apply in_map_iff in Hin as [j0 [Hj0 Hin0]].
    destruct (str_eqb (id j0) x) eqn:E.
    + subst j'; apply str_eqb_eq in E; simpl; congruence.
    + subst j'; specialize (Hok j0 Hin0 Hact); congruence.
Qed.

Lemma addDownloadJob_inv : forall s u fid jobId gen now,
  Inv s -> Inv (snd (addDownloadJob s u fid jobId gen now)).
Proof.
  intros s u fid jobId gen now [Hnd Hok]; unfold addDownloadJob.
  destruct (lookup (pick_id jobId gen) (jobs s)) eqn:Hl; [split; auto|].
  apply lookup_none in Hl.
  destruct (Inv_append (jobs s) (activeJob s)
              (mkJob (pick_id jobId gen) Download u (Some fid) None None None
                 Queued now None None None None None) Hnd Hok Hl eq_refl)
    as [H1 H2].
  simpl; destruct (is_none (activeJob s) && _);
    [apply Inv_processQueue|]; split; assumption.
Qed.

Lemma addConvertJob_inv : forall s u tf dep inp jobId gen now r,
  Inv s -> addConvertJob s u tf dep inp jobId gen now = Returns r ->
  Inv (snd r).
Proof.
  intros s u tf dep inp jobId gen now r [Hnd Hok]; unfold addConvertJob.
  destruct (lookup (pick_id jobId gen) (jobs s)) eqn:Hl.
  { intros H; inversion H; subst; split; auto. }
  apply lookup_none in Hl.
  destruct (Inv_append (jobs s) (activeJob s)
              (mkJob (pick_id jobId gen) Convert u None (Some tf) inp dep
                 Queued now None None None None None) Hnd Hok Hl eq_refl)
    as [H1 H2].
  destruct (otruthy dep) as [d|];
    [destruct (lookup d (jobs s)) as [dj|];
       [destruct (jobtype_eqb (type dj) Download)|] |];
    intros H; try discriminate; inversion H; subst; simpl;
    match goal with |- Inv (if ?c then _ else _) => destruct c end;
    try apply Inv_processQueue; split; assumption.
Qed.

Lemma completeJob_inv : forall s x now, Inv s -> Inv (completeJob s x now).
Proof.
  intros s x now [Hnd Hok]; unfold completeJob.
  destruct (lookup x (jobs s)) as [j|]; [|split; auto].
  unfold completeJob_mark; destruct (jobtype_eqb (type j) Download);
    unfold notifyDependentJobs; apply Inv_finish; simpl;
    try (rewrite update_id; auto);
    apply actok_terminal with (a := activeJob s); auto using set_completed_term.
Qed.

Lemma failJob_inv : forall s x e now, Inv s -> Inv (failJob s x e now).
Proof.
  intros s x e now [Hnd Hok]; unfold failJob.
  destruct (lookup x (jobs s)) as [j|]; [|split; auto].
  exact (fail_mark_ok (jobs s) (queue s) (activeJob s) x (Some e) now
           (jobtype_eqb (type j) Download) (id j)
           (js "Dependency failed: " ++ e) Hnd Hok).
Qed.

Lemma cancelJob_inv : forall s bus x now,
  Inv s -> Inv (snd (cancelJob s bus x now)).
Proof.
  intros s bus x now HI; unfold cancelJob.
  destruct (lookup x (jobs s)) as [j|]; [|exact HI].
  simpl; apply Inv_processQueue; unfold cancelJob_entry.
  set (s1 := mkQ (jobs s) (remove_first x (queue s)) (activeJob s)).
  assert (HI1 : Inv s1) by exact HI.
  destruct (ostr_eqb (activeJob s1) x) eqn:Ha.
  - set (s1' := match otruthy (downloadId j) with
                 | Some dl =>
                     match Progress.getProgress bus dl with
                     | Some p => onProgress s1
                                   (Progress.with_status Progress.PCancelled p) now
                     | None => s1
                     end
                 | None => s1
                 end).
    assert (HI1' : Inv s1' /\ activeJob s1' = activeJob s1).
    { subst s1'; destruct (otruthy (downloadId j)) as [dl|]; [|auto].
      destruct (Progress.getProgress bus dl) as [pr|]; [|auto].
      split; [apply onProgress_inv; auto|].
      apply onProgress_cancelled_active; reflexivity. }
    destruct HI1' as [[Hnd' Hok'] Hact'].
    split; simpl; [rewrite update_id; auto|].
    apply actok_terminal with (a := activeJob s1');
      auto using set_failed_term.
    right; rewrite Hact'; simpl in Ha |- *.
    destruct (activeJob s) as [y|]; [|discriminate].
    simpl in Ha |- *; rewrite Ha; reflexivity.
  - destruct HI1 as [Hnd1 Hok1]; split; simpl; [rewrite update_id; auto|].
    apply actok_terminal with (a := activeJob s1); auto using set_failed_term.
Qed.

Lemma step_inv : forall s s', step s s' -> Inv s -> Inv s'.
Proof.
  intros s s' Hs; destruct Hs; intros HI.
  - apply addDownloadJob_inv; auto.
  - eapply addConvertJob_inv; eauto.
  - apply startJob_inv; auto.
  - apply completeJob_inv; auto.
  - apply failJob_inv; auto.
  - apply cancelJob_inv; auto.
  - apply onProgress_inv; auto.
Qed.

Lemma reachable_inv : forall s, reachable s -> Inv s.
Proof.
  induction 1.
  - split; [constructor | intros j []].
  - eapply step_inv; eauto.
Qed.

Lemma at_most_one_active : forall l a,
  NoDup (map id l) -> ActOK l a ->
  List.length (filter (fun j => is_active (status j)) l) <= 1.
Proof.
  induction l as [|j l IH]; intros a Hnd Hok; simpl; [lia|].
  inversion Hnd as [|? ? Hni Hnd']; subst.
  assert (Hok' : ActOK l a) by (intros j' H; apply Hok; right; auto).
  destruct (is_active (status j)) eqn:Hj; [|eapply IH; eauto].
  assert (Hnil : filter (fun j => is_active (status j)) l = []).
  { destruct (filter _ l) as [|j' r] eqn:Hf; [reflexivity|exfalso].
    assert (Hin : In j' (filter (fun j => is_active (status j)) l))
      by (rewrite Hf; left; reflexivity).
    apply filter_In in Hin as [Hin Hact].
    pose proof (Hok j (or_introl eq_refl) Hj) as E1.
    pose proof (Hok' j' Hin Hact) as E2.
    apply Hni; rewrite E1 in E2; injection E2 as E2; rewrite E2.
    apply in_map; assumption. }
  rewrite Hnil; simpl; lia.
Qed.

End QueueProofs.

(** * Claims about the scheduler *)
Module QueueClaims.
Import Queue QueueScenarios QueueProofs.

Lemma lookup_map : forall (g : QueueJob -> QueueJob) k l,
  (forall j, id (g j) = id j) ->
  lookup k (map g l) = option_map g (lookup k l).
Proof.
  intros g k l Hg; induction l as [|j l IH]; simpl; [reflexivity|].
  unfold lookup in *; simpl; rewrite Hg.
  destruct (str_eqb (id j) k); [reflexivity | exact IH].
Qed.

Lemma lookup_update_same : forall x f l j,
  (forall j, id (f j) = id j) -> lookup x l = Some j ->
  lookup x (update x f l) = Some (f j).
Proof.
  intros x f l j Hf Hl; unfold update.
  rewrite lookup_map; [|intros j0; destruct (str_eqb (id j0) x); auto].
  rewrite Hl; simpl; apply lookup_some in Hl as [_ ->].
  rewrite str_eqb_refl; reflexivity.
Qed.

Lemma head_is_hd : forall q x, head_is q x = true <-> hd_error q = Some x.
Proof.
  intros [|h q] x; simpl; [split; discriminate|].
  rewrite str_eqb_eq; split; congruence.
Qed.

Lemma canJobStart_spec : forall s j,
  canJobStart s j = true <-> dependency_completed s j.
Proof.
  intros s j; unfold canJobStart, dependency_completed.
  destruct (otruthy (dependsOn j)) as [d|]; [|split; [discriminate|auto]].
  split.
  - intros H d' Hd'; injection Hd' as <-.
    destruct (lookup d (jobs s)) as [dj|]; [|discriminate].
    exists dj; split; [reflexivity|]; apply status_eqb_eq; exact H.
  - intros H; destruct (H d eq_refl) as [dj [-> Hs]].
    apply status_eqb_eq; exact Hs.
Qed.

(** C1 (single active job). In every state reachable from the empty
    scheduler by addDownloadJob, addConvertJob, startJob, completeJob,
    failJob, cancelJob and progress events, every job whose status is
    'downloading' or 'converting' is the job named by [activeJob], and
    there is at most one such job. *)
Theorem single_active_job : forall s, reachable s ->
  (forall j, In j (jobs s) -> is_active (status j) = true ->
             activeJob s = Some (id j))
  /\ List.length (filter (fun j => is_active (status j)) (jobs s)) <= 1.
Proof.
  intros s Hr; destruct (reachable_inv s Hr) as [Hnd Hok]; split.
  - exact Hok.
  - eapply at_most_one_active; eauto.
Qed.

Lemma single_active_job_witness : reachable sAB_started /\
  ((forall j, In j (jobs sAB_started) -> is_active (status j) = true ->
             activeJob sAB_started = Some (id j))
   /\ List.length (filter (fun j => is_active (status j))
                    (jobs sAB_started)) <= 1).
Proof.
  assert (Hr : reachable sAB_started).
  { eapply reach_step; [eapply reach_step; [eapply reach_step|]|].
    - apply reach_init.
    - apply StAddDownload.
    - apply StAddDownload.
    - apply StStart. }
  split; [exact Hr | apply (single_active_job sAB_started Hr)].
Defined.

(** C2 (startJob). For a job [x] in the map, [startJob x dl] returns true
    exactly when [activeJob] is null, [x] heads the queue and the job's
    dependency (if any) is 'completed'. When true it pops the head, sets
    [activeJob = x], sets the status to 'downloading' (download job) or
    'converting' (convert job), stamps [startedAt] and records [dl]; when
    false the state is unchanged. *)
Theorem startJob_spec : forall s x dl now j,
  lookup x (jobs s) = Some j ->
  (fst (startJob s x dl now) = true <->
     activeJob s = None /\ hd_error (queue s) = Some x
     /\ dependency_completed s j)
  /\ (fst (startJob s x dl now) = true ->
        let s' := snd (startJob s x dl now) in
        queue s' = tl (queue s) /\ activeJob s' = Some x
        /\ exists j', lookup x (jobs s') = Some j'
           /\ status j' = (match type j with
                           | Download => Downloading
                           | Convert => Converting end)
           /\ startedAt j' = Some now /\ downloadId j' = Some dl
           /\ j' = set_started (status j') now dl j)
  /\ (fst (startJob s x dl now) = false -> snd (startJob s x dl now) = s).
Proof.
  intros s x dl now j Hl; unfold startJob; rewrite Hl.
  destruct (activeJob s) as [a|] eqn:Ha; simpl.
  { split; [split; [discriminate | intros [H _]; discriminate]|].
    split; [discriminate | auto]. }
  destruct (head_is (queue s) x) eqn:Hh; simpl.
  2:{ split; [split; [discriminate|] | split; [discriminate | auto]].
      intros [_ [H _]]; apply head_is_hd in H; congruence. }
  destruct (canJobStart s j) eqn:Hc; simpl.
  2:{ split; [split; [discriminate|] | split; [discriminate | auto]].
      intros [_ [_ H]]; apply canJobStart_spec in H; congruence. }
  split; [split; [intros _; split; [reflexivity | split] | reflexivity]|].
  - apply head_is_hd; exact Hh.
  - apply canJobStart_spec; exact Hc.
  - split; [|discriminate]; intros _; simpl.
    split; [reflexivity | split; [reflexivity|]].
    eexists; split.
    + apply lookup_update_same; [reflexivity | exact Hl].
    + destruct (type j); simpl; repeat split.
Qed.

Lemma startJob_spec_witness :
  lookup (js "a") (jobs sAB) = Some (mkJob (js "a") Download (js "https://e.com/v")
    (Some (js "18")) None None None Queued 0 None None None None None)
  /\ ((fst (startJob sAB (js "a") (js "a") 2) = true <->
        activeJob sAB = None /\ hd_error (queue sAB) = Some (js "a")
        /\ dependency_completed sAB (mkJob (js "a") Download (js "https://e.com/v")
             (Some (js "18")) None None None Queued 0 None None None None None))
      /\ True).
Proof.
  assert (Hl : lookup (js "a") (jobs sAB) = Some (mkJob (js "a") Download
    (js "https://e.com/v") (Some (js "18")) None None None Queued 0 None None
    None None None)) by (vm_compute; reflexivity).
  split; [exact Hl|]; split; [|exact I].
  exact (proj1 (startJob_spec sAB (js "a") (js "a") 2 _ Hl)).
Defined.

(** C3, as stated: after cancelling the merely queued job "b" while job
    "a" is active, [activeJob] is not null on entry to [processQueue],
    nor when it returns. *)
Lemma drain_entry_not_null :
  exists e, cancelJob_entry_opt sAB_started Progress.bus0 (js "b") 3 = Some e
    /\ activeJob e = Some (js "a")
    /\ activeJob (snd (cancelJob sAB_started Progress.bus0 (js "b") 3))
       = Some (js "a").
Proof.
  eexists; split; [reflexivity|]; split; vm_compute; reflexivity.
Qed.

(** C3 (drain after a terminal transition, amended). completeJob, failJob
    and cancelJob of a job [x] in the map end by calling [processQueue];
    on entry [activeJob] is null if it was [x] or null, and otherwise
    still names the other active job; [processQueue] leaves it as is. *)
Theorem drain_after_terminal : forall s x j bus e now,
  lookup x (jobs s) = Some j ->
  (exists st, completeJob_entry s x now = Some st
     /\ completeJob s x now = processQueue st
     /\ activeJob st = clear_active (activeJob s) x
     /\ activeJob (processQueue st) = activeJob st)
  /\ (exists st, failJob_entry s x e now = Some st
     /\ failJob s x e now = processQueue st
     /\ activeJob st = clear_active (activeJob s) x
     /\ activeJob (processQueue st) = activeJob st)
  /\ (exists st, cancelJob_entry_opt s bus x now = Some st
     /\ snd (cancelJob s bus x now) = processQueue st
     /\ activeJob st = clear_active (activeJob s) x
     /\ activeJob (processQueue st) = activeJob st).
Proof.
  intros s x j bus e now Hl.
  unfold completeJob_entry, failJob_entry, cancelJob_entry_opt,
    completeJob, failJob, cancelJob, finishJob; rewrite Hl.
  split; [|split].
  - eexists; split; [reflexivity|]; split; [reflexivity|].
    split; [|apply processQueue_active].
    unfold completeJob_mark; destruct (jobtype_eqb (type j) Download);
      reflexivity.
  - eexists; split; [reflexivity|]; split; [reflexivity|].
    split; [|apply processQueue_active].
    unfold failJob_mark; destruct (jobtype_eqb (type j) Download);
      simpl; [rewrite failDependentJobs_active|]; reflexivity.
  - eexists; split; [reflexivity|]; split; [reflexivity|].
    split; [|apply processQueue_active].
    unfold cancelJob_entry; simpl.
    destruct (activeJob s) as [y|] eqn:Ha; simpl; [|reflexivity].
    destruct (str_eqb y x) eqn:E; simpl; [|reflexivity].
    destruct (otruthy (downloadId j)) as [dl|]; simpl; [|reflexivity].
    destruct (Progress.getProgress bus dl); reflexivity.
Qed.

Lemma drain_after_terminal_witness :
  lookup (js "b") (jobs sAB_started) = Some (mkJob (js "b") Download
    (js "https://e.com/w") (Some (js "18")) None None None Queued 1 None None
    None None None)
  /\ (exists st, cancelJob_entry_opt sAB_started Progress.bus0 (js "b") 3
                 = Some st
      /\ snd (cancelJob sAB_started Progress.bus0 (js "b") 3) = processQueue st
      /\ activeJob st = clear_active (activeJob sAB_started) (js "b")
      /\ activeJob (processQueue st) = activeJob st).
Proof.
  assert (Hl : lookup (js "b") (jobs sAB_started) = Some (mkJob (js "b")
    Download (js "https://e.com/w") (Some (js "18")) None None None Queued 1
    None None None None None)) by (vm_compute; reflexivity).
  split; [exact Hl|].
  exact (proj2 (proj2 (drain_after_terminal sAB_started (js "b") _
                         Progress.bus0 (js "x") 3 Hl))).
Defined.

(** C4: cancelling the download job "a" on which the queued convert job
    "c" depends leaves "c" 'queued' and still in the queue, with no
    'Dependency failed' error; failJob on "a" fails "c". *)
Theorem cancel_dependency_not_cascaded :
  let s' := snd (cancelJob sDC Progress.bus0 (js "a") 2) in
  status_in sDC (js "c") = Some Queued
  /\ status_in s' (js "a") = Some Failed
  /\ status_in s' (js "c") = Some Queued
  /\ queue s' = [js "c"]
  /\ status_in (failJob sDC (js "a") (js "boom") 2) (js "c") = Some Failed.
Proof. vm_compute; repeat split. Qed.
















Lemma status_in_update : forall s' x f j l,
  jobs s' = update x f l -> lookup x l = Some j ->
  (forall j, id (f j) = id j) ->
  status_in s' x = Some (status (f j)).
Proof.
  intros s' x f j l Hs Hl Hf; unfold status_in; rewrite Hs.
  rewrite (lookup_update_same x f l j Hf Hl); reflexivity.
Qed.

(** C5 (code bug). Terminal statuses are not guarded. In the reachable
    state where download job "a" has failed, one completeJob step moves it
    to 'completed', and a later failJob moves it back to 'failed'. The
    progress listener completes only 'downloading' or 'converting' jobs,
    and the route fails only jobs that are not terminal. *)
Lemma terminal_status_overwritten :
  reachable sA_failed
  /\ step sA_failed (completeJob sA_failed (js "a") 4)
  /\ status_in sA (js "a") = Some Queued
  /\ status_in sA_failed (js "a") = Some Failed
  /\ status_in (completeJob sA_failed (js "a") 4) (js "a") = Some Completed
  /\ status_in (failJob (completeJob sA_failed (js "a") 4) (js "a") (js "e") 5)
       (js "a") = Some Failed.
Proof.
  split.
  { apply (reach_step sA); [|apply StFail].
    apply (reach_step empty); [constructor | apply StAddDownload]. }
  split; [apply StComplete|].
  vm_compute; repeat split.
Qed.



End QueueClaims.

(** * Claims about the progress bus *)
Module ProgressClaims.
Import Progress Stream.
Local Open Scope Z_scope.

Lemma find_map_keys : forall (h : jsstr * DownloadSession -> jsstr * DownloadSession)
    dl l,
  (forall kv, fst (h kv) = fst kv) ->
  find (fun kv => str_eqb (fst kv) dl) (map h l)
  = option_map h (find (fun kv => str_eqb (fst kv) dl) l).
Proof.
  intros h dl l Hh; induction l as [|kv l IH]; simpl; [reflexivity|].
  rewrite Hh; destruct (str_eqb (fst kv) dl); [reflexivity | exact IH].
Qed.

Lemma get_put : forall dl se p b se0,
  get dl b = Some se0 ->
  get dl (put_and_emit dl se p b) = Some (set_sess_progress p se).
Proof.
  intros dl se p b se0 H; unfold get, put_and_emit in *; simpl.
  rewrite find_map_keys by (intros kv; destruct (str_eqb (fst kv) dl); reflexivity).
  destruct (find _ (sessions b)) as [[k v]|] eqn:E; [|discriminate].
  simpl; apply find_some in E as [_ E]; simpl in E; rewrite E; reflexivity.
Qed.

Lemma emitted_put : forall dl se p b,
  emitted (put_and_emit dl se p b) = emitted b ++ [p].
Proof. reflexivity. Qed.

(** C6, as stated: a session marked 'completed' is turned into 'error'
    by a later markError. *)
Lemma terminal_session_overwritten :
  status_of (markCompleted busD (js "d")) (js "d") = Some PCompleted
  /\ status_of (markError (markCompleted busD (js "d")) (js "d") (js "boom"))
       (js "d") = Some PError.
Proof. vm_compute; split; reflexivity. Qed.

(** C6 (amended). The progress bus does not guard terminal statuses: on
    an existing session, markCompleted sets 'completed', markError sets
    'error' and updateProgress sets 'downloading', whatever the current
    status. Only a repeat of the same mark leaves the status as it is:
    a second markCompleted leaves the whole progress record unchanged and
    a second markError keeps 'error'. *)
Theorem session_status_unguarded : forall b dl se n t e e',
  get dl b = Some se ->
  status_of (markCompleted b dl) dl = Some PCompleted
  /\ status_of (markError b dl e) dl = Some PError
  /\ status_of (updateProgress b dl n t) dl = Some PDownloading
  /\ getProgress (markCompleted (markCompleted b dl) dl) dl
     = getProgress (markCompleted b dl) dl
  /\ status_of (markError (markError b dl e) dl e') dl = Some PError.
Proof.
  intros b dl se n t e e' H.
  unfold status_of, getProgress, markCompleted, markError, updateProgress.
  rewrite H.
  rewrite !(get_put dl se _ b se H); simpl.
  rewrite !(get_put dl _ _ _ _ (get_put dl se _ b se H)); simpl.
  repeat split.
Qed.

Lemma session_status_unguarded_witness :
  get (js "d") (markCompleted busD (js "d"))
    = Some (mkSession (js "d") (js "https://e.com/v") (js "18")
              (mkProgress (js "d") 0 None (Some 100) PCompleted None) 0)
  /\ status_of (markError (markCompleted busD (js "d")) (js "d") (js "boom"))
       (js "d") = Some PError.
Proof.
  assert (H : get (js "d") (markCompleted busD (js "d"))
    = Some (mkSession (js "d") (js "https://e.com/v") (js "18")
              (mkProgress (js "d") 0 None (Some 100) PCompleted None) 0))
    by (vm_compute; reflexivity).
  split; [exact H|].
  exact (proj1 (proj2 (session_status_unguarded _ (js "d") _ 0 None
                         (js "boom") (js "x") H))).
Defined.

(** ** Events of one stream *)
Definition BInv (dl : jsstr) (b : Bus) (c : Z) : Prop :=
  exists se, get dl b = Some se
    /\ pct_consistent (sess_progress se)
    /\ bytesDownloaded (sess_progress se) <= c
    /\ Forall (fun ev => pct_consistent ev
                /\ bytesDownloaded ev <= bytesDownloaded (sess_progress se))
         (emitted b)
    /\ StronglySorted Z.le (map bytesDownloaded (emitted b)).

Lemma SSorted_snoc : forall l y,
  StronglySorted Z.le l -> Forall (fun x => x <= y) l ->
  StronglySorted Z.le (l ++ [y]).
Proof.
  induction l as [|x l IH]; intros y Hs Hf; simpl.
  - repeat constructor.
  - inversion Hs; inversion Hf; subst; constructor.
    + apply IH; auto.
    + apply Forall_app; split; auto.
Qed.

Lemma BInv_put : forall dl b c c' se p,
  BInv dl b c -> get dl b = Some se -> pct_consistent p ->
  bytesDownloaded (sess_progress se) <= bytesDownloaded p <= c' -> c <= c' ->
  BInv dl (put_and_emit dl se p b) c'.
Proof.
  intros dl b c c' se p [se0 [Hg [Hp [Hc [Hf Hs]]]]] Hg' Hpc Hb Hcc.
  rewrite Hg in Hg'; injection Hg' as <-.
  exists (set_sess_progress p se0); split; [eapply get_put; eauto|].
  simpl; split; [exact Hpc|]; split; [lia|]; split.
  - apply Forall_app; split; [|constructor; [split; [auto|lia]|constructor]].
    eapply Forall_impl; [|exact Hf]; intros ev [H1 H2]; split; auto; lia.
  - rewrite map_app; apply SSorted_snoc; [exact Hs|].
    apply Forall_map; eapply Forall_impl; [|exact Hf].
    intros ev [_ H]; lia.
Qed.

Lemma BInv_update : forall dl b c c' total,
  BInv dl b c -> c <= c' -> (forall t, total = Some t -> 0 <= t) ->
  BInv dl (updateProgress b dl c' total) c'.
Proof.
  intros dl b c c' total HB Hc Ht; unfold updateProgress.
  pose proof HB as [se [Hg [_ [Hb _]]]]; rewrite Hg.
  apply (BInv_put dl b c c' se); [exact HB | exact Hg | | simpl; lia | exact Hc].
  - unfold pct_consistent, pct_of; simpl.
    destruct total as [t|]; [|left; reflexivity].
    destruct (Z.eqb t 0) eqn:E; [left; reflexivity|].
    right; right; exists t; split; [reflexivity|]; split; [|reflexivity].
    apply Z.eqb_neq in E; specialize (Ht t eq_refl); lia.
Qed.

Lemma BInv_copy : forall dl b c f,
  BInv dl b c ->
  (forall p, pct_consistent p -> pct_consistent (f p)
             /\ bytesDownloaded (f p) = bytesDownloaded p) ->
  forall se, get dl b = Some se ->
  BInv dl (put_and_emit dl se (f (sess_progress se)) b) c.
Proof.
  intros dl b c f HB Hf se Hg.
  pose proof HB as [se0 [Hg0 [Hp [Hc _]]]].
  rewrite Hg in Hg0; injection Hg0 as <-.
  destruct (Hf _ Hp) as [H1 H2].
  apply (BInv_put dl b c c); auto; lia.
Qed.

Lemma BInv_markCompleted : forall dl b c,
  BInv dl b c -> BInv dl (markCompleted b dl) c.
Proof.
  intros dl b c HB; unfold markCompleted.
  destruct (get dl b) as [se|] eqn:Hg; [|exact HB].
  apply (BInv_copy dl b c (fun p => mkProgress (downloadId p)
    (bytesDownloaded p) (totalBytes p) (Some 100) PCompleted (error p)));
    auto.
  intros p _; split; [right; left|]; reflexivity.
Qed.

Lemma BInv_markError : forall dl b c e,
  BInv dl b c -> BInv dl (markError b dl e) c.
Proof.
  intros dl b c e HB; unfold markError.
  destruct (get dl b) as [se|] eqn:Hg; [|exact HB].
  apply (BInv_copy dl b c (fun p => mkProgress (downloadId p)
    (bytesDownloaded p) (totalBytes p) (percentage p) PError (Some e)));
    auto.
Qed.

Lemma BInv_cancel : forall dl b c,
  BInv dl b c -> BInv dl (snd (cancelDownload b dl)) c.
Proof.
  intros dl b c HB; unfold cancelDownload.
  destruct (get dl b) as [se|] eqn:Hg; [|exact HB].
  apply (BInv_copy dl b c (with_status PCancelled)); auto.
Qed.

Lemma BInv_step : forall dl st i,
  BInv dl (bus st) (counter st) -> 0 <= counter st ->
  BInv dl (bus (stream_step dl st i)) (counter (stream_step dl st i))
  /\ 0 <= counter (stream_step dl st i).
Proof.
  intros dl [c b] i HB Hc; simpl in *; destruct i as [n|t| |m| |]; simpl.
  - destruct (_ || _); simpl; split; try lia.
    + apply (BInv_update dl b c); auto; [lia | discriminate].
    + destruct HB as [se [Hg [Hp [Hc' Hr]]]].
      exists se; split; [exact Hg|]; split; [exact Hp|]; split; [lia|exact Hr].
  - split; auto; apply (BInv_update dl b c); [auto | lia |].
    intros t' Ht'; injection Ht' as <-; lia.
  - split; auto; apply BInv_markCompleted.
    apply (BInv_update dl b c); [auto | lia | discriminate].
  - split; auto; apply BInv_markError; auto.
  - split; auto; apply BInv_markCompleted; auto.
  - split; auto; apply BInv_cancel; auto.
Qed.

Lemma BInv_run : forall dl l st,
  BInv dl (bus st) (counter st) -> 0 <= counter st ->
  BInv dl (bus (run dl st l)) (counter (run dl st l)).
Proof.
  intros dl l; induction l as [|i l IH]; intros st HB Hc; [exact HB|].
  simpl; destruct (BInv_step dl st i HB Hc); apply IH; auto.
Qed.

Lemma BInv_start : forall u fid dl now,
  BInv dl (bus (start u fid dl now)) 0.
Proof.
  intros u fid dl now; unfold start, createSession, otruthy.
  destruct (truthy dl); simpl;
    (eexists; split;
     [unfold get; simpl; rewrite str_eqb_refl; reflexivity
     |simpl; split; [left; reflexivity|]; split; [lia|]; split; constructor]).
Qed.

Lemma round_pct_le_100 : forall b t, 0 < t -> b <= t -> round_pct b t <= 100.
Proof.
  intros b t Ht Hb; unfold round_pct, Double.div, Double.math_round,
    Double.mul_int.
  destruct (t <? 0) eqn:E; [apply Z.ltb_lt in E; lia|].
  set (x := Double.rn b t).
  pose proof (DoubleFacts.den_pos x) as Hx.
  assert (Hnx : Double.num x * 100 <= 100 * Double.den x).
  { destruct (Z.le_gt_cases 0 b) as [H0|H0].
    - assert (H := DoubleFacts.rn_le b t 1 H0 Ht ltac:(lia) ltac:(lia)).
      fold x in H; lia.
    - assert (H := DoubleFacts.rn_nonpos b t ltac:(lia) Ht).
      fold x in H; lia. }
  set (y := Double.rn (Double.num x * 100) (Double.den x)).
  pose proof (DoubleFacts.den_pos y) as Hy.
  assert (Hny : Double.num y <= 100 * Double.den y).
  { destruct (Z.le_gt_cases 0 (Double.num x * 100)) as [H0|H0].
    - assert (H := DoubleFacts.rn_le _ _ 100 H0 Hx ltac:(lia) Hnx).
      fold y in H; lia.
    - assert (H := DoubleFacts.rn_nonpos (Double.num x * 100) (Double.den x)
                     ltac:(lia) Hx).
      fold y in H; lia. }
  assert (H : (2 * Double.num y + Double.den y) / (2 * Double.den y) < 101)
    by (apply Z.div_lt_upper_bound; lia).
  lia.
Qed.

(** C7, as stated: a 64 KiB chunk followed by a stderr line announcing a
    total of 32 KiB publishes a percentage of 200. *)
Lemma percentage_over_100 :
  emitted (bus (run (js "d") (start (js "https://e.com/v") (js "18") (js "d") 0)
                  [Chunk 65536; StderrTotal 32768]))
  = [mkProgress (js "d") 65536 None None PDownloading None;
     mkProgress (js "d") 65536 (Some 32768) (Some 200) PDownloading None].
Proof. vm_compute; reflexivity. Qed.

(** C7 (amended). Over all progress events that one [streamDownload]
    publishes for its [downloadId] (together with the marks of the route
    and the scheduler), [bytesDownloaded] never decreases, even across a
    terminal status. Each percentage is null, 100 (from markCompleted), or
    [Math.round((bytes / total) * 100)], computed on doubles, for the
    event's own bytes and positive total. So it is at most 100 when the
    bytes do not exceed the total; nothing caps it when the stderr estimate
    is below the bytes already counted. *)
Theorem stream_progress_events : forall u fid dl now l,
  let evs := emitted (bus (run dl (start u fid dl now) l)) in
  StronglySorted Z.le (map bytesDownloaded evs)
  /\ (forall ev, In ev evs -> pct_consistent ev)
  /\ (forall ev, In ev evs ->
        (forall t, totalBytes ev = Some t -> bytesDownloaded ev <= t) ->
        forall p, percentage ev = Some p -> p <= 100).
Proof.
  intros u fid dl now l evs.
  destruct (BInv_run dl l (start u fid dl now) (BInv_start u fid dl now)
              ltac:(simpl; lia)) as [se [_ [_ [_ [Hf Hs]]]]].
  fold evs in Hf, Hs.
  assert (Hc : forall ev, In ev evs -> pct_consistent ev).
  { intros ev Hin; rewrite Forall_forall in Hf; apply (Hf ev Hin). }
  split; [exact Hs|]; split; [exact Hc|].
  intros ev Hin Hle p Hp.
  destruct (Hc ev Hin) as [H | [H | [t [Ht [Hpos H]]]]]; rewrite Hp in H.
  - discriminate.
  - injection H as ->; lia.
  - injection H as ->; apply round_pct_le_100; auto.
Qed.

End ProgressClaims.

(** * Claims about the URL policy *)
Module UrlClaims.
Import Url.

Lemma url_examples :
  isValidUrl (js "https://www.youtube.com/watch?v=x") = Some true
  /\ isValidUrl (js "http://localhost:8080/") = Some false
  /\ isValidUrl (js "http://172.20.0.1/") = None
  /\ isValidUrl (js "HTTP://Example.COM") = Some true
  /\ isValidUrl (js "ftp://example.com/") = Some false
  /\ isValidUrl (js "http://[0:0:0:0:0:0:0:1]/") = Some true
  /\ URL_parse (js "http://[0:0:0:0:0:0:0:1]/") = PUrl (js "http:") (js "[::1]")
  /\ URL_parse (js "http://[2001:db8:0:0:1:0:0:1]:80/") = PUrl (js "http:") (js "[2001:db8::1:0:0:1]")
  /\ URL_parse (js "http://[1::2:3:4:5:6:7:8]/") = PThrows.
Proof. vm_compute. repeat split. Qed.

(** C8. The hostname of a URL with an IPv6 literal host keeps its
    brackets, so no entry of the blocklist matches it and the comparison
    [hostname === '::1'] never holds: every http(s) URL of at most 2048
    characters whose host is an IPv6 literal is accepted, [http://[::1]/]
    (the IPv6 loopback) included. *)
Theorem ipv6_host_accepted : forall u p rest,
  (List.length u <= 2048)%nat ->
  URL_parse u = PUrl p (91%N :: rest) -> is_web_protocol p = true ->
  isValidUrl u = Some true.
Proof.
  intros u p rest Hlen Hp Hw; unfold isValidUrl.
  destruct u as [|c u'] eqn:Hu; [discriminate|]; rewrite <- Hu in *.
  simpl truthy; cbv iota beta.
  destruct (Nat.ltb_spec 2048 (List.length u)); [lia|].
  rewrite Hp, Hw; simpl negb; cbv iota.
  unfold BLOCKED_PATTERNS, prefix_ci, re_172, js; simpl.
  rewrite Hu; reflexivity.
Qed.

Lemma ipv6_host_accepted_witness :
  URL_parse (js "http://[::1]/") = PUrl (js "http:") (js "[::1]")
  /\ isValidUrl (js "http://[::1]/") = Some true.
Proof.
  split; [vm_compute; reflexivity|].
  apply (ipv6_host_accepted (js "http://[::1]/") (js "http:") (js "::1]")).
  - vm_compute; lia.
  - vm_compute; reflexivity.
  - vm_compute; reflexivity.
Defined.

End UrlClaims.

(** * Claims about format normalization *)
Module AnalyzeClaims.
Import Analyze.
Local Open Scope Z_scope.

Definition raw_1440 : RawFormat :=
  mkRaw (Some (js "a")) (Some (js "mp4")) None (Some (js "avc1"))
    (Some (js "none")) None (Some 1440) None None None.
Definition raw_1080 : RawFormat :=
  mkRaw (Some (js "b")) (Some (js "mp4")) None (Some (js "avc1"))
    (Some (js "none")) (Some 1920) (Some 1080) None None None.

Definition fkey (f : Format) : jsstr :=
  formatKey (fmt_type f) (fmt_ext f) (fmt_resolution f).

(** The loop's invariant: [seenFormats] lists the keys of
    [processedFormats], whose triples are pairwise distinct. *)
Definition PInv (acc : Acc) : Prop :=
  map fkey (processedFormats acc) = seenFormats acc
  /\ NoDup (map triple (processedFormats acc)).

Lemma PInv_mk : forall p s,
  map fkey p = s -> NoDup (map triple p) -> PInv (mkAcc p s).
Proof. intros p s H1 H2; split; assumption. Qed.

Lemma kind_eqb_eq : forall a b, kind_eqb a b = true -> a = b.
Proof. intros [] []; simpl; congruence. Qed.

Lemma ext_eqb_eq : forall a b, ext_eqb a b = true -> a = b.
Proof.
  intros [x|x] [y|y]; simpl; try discriminate;
    intros H; apply str_eqb_eq in H; subst; reflexivity.
Qed.

Lemma findIndex_some : forall {A} (p : A -> bool) l i,
  findIndex p l = Some i -> exists x, nth_error l i = Some x /\ p x = true.
Proof.
  intros A p l; induction l as [|y l IH]; intros i H; simpl in H;
    [discriminate|].
  destruct (p y) eqn:Hy.
  - injection H as <-; exists y; auto.
  - destruct (findIndex p l) as [j|] eqn:Hj; simpl in H; [|discriminate].
    injection H as <-; apply IH; reflexivity.
Qed.

Lemma map_replace_nth : forall {A B} (g : A -> B) l i v e,
  nth_error l i = Some e -> g v = g e ->
  map g (replace_nth i v l) = map g l.
Proof.
  intros A B g l; induction l as [|x l IH]; intros i v e Hn Hg;
    destruct i as [|i]; simpl in *; try discriminate.
  - injection Hn as ->; rewrite Hg; reflexivity.
  - f_equal; eapply IH; eauto.
Qed.

Lemma PInv_step : forall lc acc f, PInv acc -> PInv (process_format lc acc f).
Proof.
  intros lc acc f HI; unfold process_format.
  destruct (format_id f) as [fid|], (ext f) as [e|]; try exact HI.
  destruct (negb (truthy fid) || negb (truthy e)); [exact HI|].
  destruct (_ || _); [exact HI|].
  destruct (negb (has_video f) && negb (has_audio f)); [exact HI|].
  destruct (has_video f && _ && _ && _); [exact HI|].
  cbv zeta.
  set (type := if has_video f then Video else Audio).
  set (ne := normalizeContainerType lc e).
  set (res := normalizeResolution f type).
  set (fsize := normalizeFileSize (filesize f) (filesize_approx f)).
  destruct HI as [Hk Hn].
  destruct (existsb (str_eqb (formatKey type ne res)) (seenFormats acc)) eqn:E.
  - destruct (findIndex _ (processedFormats acc)) as [i|] eqn:F;
      [|split; assumption].
    destruct (findIndex_some _ _ _ F) as [x [Hx Hp]].
    rewrite Hx.
    destruct (negb (is_unknown fsize) && is_unknown (fmt_filesize x));
      [|split; assumption].
    apply andb_true_iff in Hp as [Hp Hr]; apply andb_true_iff in Hp as [Ht He].
    apply kind_eqb_eq in Ht; apply ext_eqb_eq in He; apply str_eqb_eq in Hr.
    apply PInv_mk.
    + rewrite (map_replace_nth fkey _ i _ x Hx); [exact Hk|].
      unfold fkey; simpl; rewrite Ht, He, Hr; reflexivity.
    + rewrite (map_replace_nth triple _ i _ x Hx); [exact Hn|].
      unfold triple; simpl; rewrite Ht, He, Hr; reflexivity.
  - apply PInv_mk.
    + rewrite map_app, Hk; reflexivity.
    + rewrite map_app; apply NoDup_app; [exact Hn| constructor; [intros []|constructor] |].
      intros t Ht Ht'; destruct Ht' as [<-|[]].
      apply in_map_iff in Ht as [g [Hg Hin]].
      assert (Hkey : In (formatKey type ne res) (seenFormats acc)).
      { rewrite <- Hk; apply in_map_iff; exists g; split; [|exact Hin].
        unfold triple in Hg; simpl in Hg; injection Hg as H1 H2 H3.
        unfold fkey; rewrite H1, H2, H3; reflexivity. }
      assert (Hex : existsb (str_eqb (formatKey type ne res)) (seenFormats acc) = true).
      { apply existsb_exists; exists (formatKey type ne res); split;
          [exact Hkey | apply str_eqb_refl]. }
      congruence.
Qed.

Lemma PInv_loop : forall lc l acc,
  PInv acc -> PInv (fold_left (process_format lc) l acc).
Proof.
  intros lc; induction l as [|f l IH]; intros acc H; simpl; [exact H|].
  apply IH, PInv_step, H.
Qed.

(** The comparator is antisymmetric and its [<= 0] is transitive. *)
Definition le_fmt (a b : Format) : Prop := compare_formats a b <= 0.

Lemma sgn_nonpos_iff : forall d, Z.sgn d <= 0 <-> d <= 0.
Proof. intros [|p|p]; simpl; lia. Qed.

Lemma sub_sign_le : forall x y, Double.sub_sign x y <= 0 <-> Double.jsnum_le x y.
Proof.
  intros [a|] [b|]; simpl.
  - rewrite sgn_nonpos_iff; lia.
  - split; [intros _; exact I | lia].
  - split; [lia | intros []].
  - split; [intros _; exact I | lia].
Qed.

Lemma sub_sign_antisym : forall x y,
  Double.sub_sign y x = - Double.sub_sign x y.
Proof.
  intros [a|] [b|]; simpl; try reflexivity.
  replace (b - a) with (- (a - b)) by lia; apply Z.sgn_opp.
Qed.

Lemma jsnum_le_trans : forall x y z,
  Double.jsnum_le x y -> Double.jsnum_le y z -> Double.jsnum_le x z.
Proof. intros [a|] [b|] [c|]; simpl; tauto || lia. Qed.

Lemma compare_formats_antisym : forall a b,
  compare_formats b a = - compare_formats a b.
Proof.
  intros a b; unfold compare_formats.
  destruct (fmt_type a), (fmt_type b); simpl; try lia; apply sub_sign_antisym.
Qed.

Lemma le_fmt_trans : forall a b c, le_fmt a b -> le_fmt b c -> le_fmt a c.
Proof.
  intros a b c; unfold le_fmt, compare_formats.
  destruct (fmt_type a), (fmt_type b), (fmt_type c); simpl; try lia;
    rewrite !sub_sign_le; intros H1 H2; eapply jsnum_le_trans; eassumption.
Qed.

Lemma insert_perm : forall x l, Permutation (insert x l) (x :: l).
Proof.
  intros x l; induction l as [|y l IH]; simpl; [reflexivity|].
  destruct (compare_formats x y <? 0); [reflexivity|].
  rewrite IH; apply perm_swap.
Qed.

Lemma insert_sorted : forall x l,
  StronglySorted le_fmt l -> StronglySorted le_fmt (insert x l).
Proof.
  intros x l; induction l as [|y l IH]; intros Hs; simpl.
  - repeat constructor.
  - inversion Hs as [|y' l' Hl Hf]; subst.
    destruct (Z.ltb_spec (compare_formats x y) 0) as [Hlt|Hge].
    + constructor; [exact Hs|]; constructor; [unfold le_fmt; lia|].
      eapply Forall_impl; [|exact Hf].
      intros z Hz; apply (le_fmt_trans x y z); [unfold le_fmt; lia|exact Hz].
    + constructor; [apply IH, Hl|].
      apply (Permutation_Forall (Permutation_sym (insert_perm x l))).
      constructor; [|exact Hf].
      unfold le_fmt; rewrite compare_formats_antisym; lia.
Qed.

Lemma sort_perm : forall l acc,
  Permutation (fold_left (fun acc x => insert x acc) l acc) (acc ++ l).
Proof.
  induction l as [|x l IH]; intros acc; simpl.
  - rewrite app_nil_r; reflexivity.
  - rewrite IH, insert_perm; simpl.
    apply Permutation_middle.
Qed.

Lemma sort_sorted : forall l acc, StronglySorted le_fmt acc ->
  StronglySorted le_fmt (fold_left (fun acc x => insert x acc) l acc).
Proof.
  induction l as [|x l IH]; intros acc H; simpl; [exact H|].
  apply IH, insert_sorted, H.
Qed.

(** Order of two entries in the output: video before audio, and within
    one kind a larger [extractResolutionValue] first. *)
Definition ordered_pair (a b : Format) : Prop :=
  (fmt_type a = Video \/ fmt_type b = Audio)
  /\ (fmt_type a = fmt_type b ->
      Double.jsnum_le (extractResolutionValue (fmt_resolution b))
        (extractResolutionValue (fmt_resolution a))).

Lemma le_fmt_ordered : forall a b, le_fmt a b -> ordered_pair a b.
Proof.
  intros a b; unfold le_fmt, ordered_pair, compare_formats.
  destruct (fmt_type a), (fmt_type b); simpl; intros H;
    (split; [auto|intros E]); try discriminate; try lia;
    apply sub_sign_le, H.
Qed.

Lemma StronglySorted_weaken : forall {A} (R S : A -> A -> Prop) l,
  (forall a b, R a b -> S a b) -> StronglySorted R l -> StronglySorted S l.
Proof.
  intros A R S l HRS; induction l as [|x l IH]; intros H; [constructor|].
  inversion H; subst; constructor; [apply IH; assumption|].
  eapply Forall_impl; [|eassumption]; auto.
Qed.

(** C9. For every extractor input, no two returned formats share a
    (kind, ext, resolution) triple, every video entry precedes every audio
    entry, and within a kind the entries are ordered by descending
    [extractResolutionValue] (a double from [parseInt], possibly
    [Infinity]): the FIRST number of the resolution string, which for
    ["WxH"] is the width W although the function's comment says it takes
    the height. So a 1440-line ["1440p"] entry comes after a 1080-line
    ["1920x1080"] entry (the ASCII [Url.to_lower] stands for
    [toLowerCase] on the ASCII ext ["mp4"]). *)
Theorem formats_sorted_by_first_number : forall toLowerCase formats,
  NoDup (map triple (normalizeResponse_formats toLowerCase formats))
  /\ StronglySorted ordered_pair (normalizeResponse_formats toLowerCase formats)
  /\ (map fmt_resolution
        (normalizeResponse_formats Url.to_lower (Some [raw_1440; raw_1080]))
      = [js "1920x1080"; js "1440p"]
      /\ extractResolutionValue (js "1920x1080") = Double.JFin 1920
      /\ extractResolutionValue (js "1440p") = Double.JFin 1440).
Proof.
  intros toLowerCase formats; unfold normalizeResponse_formats, sort_formats.
  set (l := processedFormats _).
  assert (HI : PInv (fold_left (process_format toLowerCase)
                       match formats with Some l => l | None => [] end
                       (mkAcc [] []))).
  { apply PInv_loop; split; [reflexivity | constructor]. }
  destruct HI as [_ Hn]; fold l in Hn.
  split; [|split].
  - eapply Permutation_NoDup; [|exact Hn].
    apply Permutation_map; rewrite sort_perm; reflexivity.
  - eapply StronglySorted_weaken; [exact le_fmt_ordered|].
    apply sort_sorted; constructor.
  - vm_compute; repeat split.
Qed.

End AnalyzeClaims.

(** * Claims about file names *)
Module FilenameClaims.
Import Filename.
Local Open Scope N_scope.
Local Arguments N.eqb : simpl never.

(** Characters of a sanitized name: [[A-Za-z0-9_.-]]. *)
Definition out_char (c : N) : bool := is_word c || (c =? 46) || (c =? 45).
Arguments out_char : simpl never.
Local Arguments keep : simpl never.

(** No two consecutive [_]; with [b], no leading [_] either. *)
Fixpoint nd (b : bool) (t : jsstr) : bool :=
  match t with
  | [] => true
  | c :: r => if c =? 95 then negb b && nd true r else nd false r
  end.

(** No trailing [_]. *)
Fixpoint nt (t : jsstr) : bool :=
  match t with
  | [] => true
  | [c] => negb (c =? 95)
  | _ :: r => nt r
  end.

(** The part of [safeFilename] before the length cap. *)
Definition core (s : jsstr) : jsstr :=
  trim_underscores (collapse_underscores (collapse_spaces (remove_special s))).

Lemma out_char_range : forall c, out_char c = true -> 45 <= c <= 122.
Proof.
  intros c H; unfold out_char, is_word, Url.is_alpha, Url.is_digit in H.
  repeat rewrite orb_true_iff in H; repeat rewrite andb_true_iff in H.
  rewrite ?N.leb_le, ?N.eqb_eq in H; lia.
Qed.

Lemma js_space_range : forall c, Analyze.is_js_space c = true -> c <= 32 \/ 160 <= c.
Proof.
  intros c H; unfold Analyze.is_js_space in H; simpl in H.
  repeat rewrite orb_true_iff in H; repeat rewrite andb_true_iff in H.
  rewrite ?N.leb_le, ?N.eqb_eq in H; lia.
Qed.

Lemma out_char_not_space : forall c, out_char c = true -> Analyze.is_js_space c = false.
Proof.
  intros c H; destruct (Analyze.is_js_space c) eqn:E; [|reflexivity].
  apply out_char_range in H; apply js_space_range in E; lia.
Qed.

Lemma keep_out : forall c, keep c = true -> Analyze.is_js_space c = false -> out_char c = true.
Proof.
  intros c; unfold keep, out_char.
  destruct (is_word c), (Analyze.is_js_space c), (c =? 46), (c =? 45); simpl; congruence.
Qed.

Lemma out_keep : forall c, out_char c = true -> keep c = true.
Proof.
  intros c; unfold keep, out_char.
  destruct (is_word c), (Analyze.is_js_space c), (c =? 46), (c =? 45); simpl; congruence.
Qed.

Lemma us_out : out_char 95 = true.
Proof. reflexivity. Qed.

(** What the steps produce. *)
Lemma remove_special_keep : forall s, forallb keep (remove_special s) = true.
Proof.
  intros s; apply forallb_forall; intros c Hc.
  apply filter_In in Hc; apply Hc.
Qed.

Lemma collapse_spaces_out : forall s b, forallb keep s = true ->
  forallb out_char (replace_runs Analyze.is_js_space 95 b s) = true.
Proof.
  induction s as [|c s IH]; intros b H; simpl in *; [reflexivity|].
  apply andb_true_iff in H as [Hc Hs].
  destruct (Analyze.is_js_space c) eqn:E.
  - destruct b; simpl; [apply IH; exact Hs|rewrite IH; auto].
  - simpl; rewrite (keep_out c Hc E), IH; auto.
Qed.

Lemma collapse_underscores_out : forall s b, forallb out_char s = true ->
  forallb out_char (replace_runs (N.eqb 95) 95 b s) = true.
Proof.
  induction s as [|c s IH]; intros b H; simpl in *; [reflexivity|].
  apply andb_true_iff in H as [Hc Hs].
  destruct (95 =? c); [destruct b; simpl; rewrite ?IH; auto|].
  simpl; rewrite Hc, IH; auto.
Qed.

Lemma collapse_underscores_nd : forall s b,
  nd b (replace_runs (N.eqb 95) 95 b s) = true.
Proof.
  induction s as [|c s IH]; intros b; simpl; [reflexivity|].
  destruct (95 =? c) eqn:E.
  - destruct b; [apply IH|]; simpl; apply IH.
  - simpl; apply N.eqb_neq in E; destruct (N.eqb_spec c 95); [lia|]; apply IH.
Qed.

Lemma nd_weaken : forall t b, nd true t = true -> nd b t = true.
Proof.
  intros [|c t] b H; simpl in *; [reflexivity|].
  destruct (c =? 95); [discriminate|exact H].
Qed.

Lemma drop_while_nd : forall t, nd false t = true ->
  nd true (Analyze.drop_while (N.eqb 95) t) = true.
Proof.
  induction t as [|c t IH]; intros H; simpl in *; [reflexivity|].
  destruct (N.eqb_spec 95 c) as [<-|Hne]; simpl in *.
  - apply IH, nd_weaken, H.
  - destruct (N.eqb_spec c 95); [lia|exact H].
Qed.

Lemma drop_while_out : forall t, forallb out_char t = true ->
  forallb out_char (Analyze.drop_while (N.eqb 95) t) = true.
Proof.
  induction t as [|c t IH]; intros H; simpl in *; [reflexivity|].
  apply andb_true_iff in H as [Hc Hs].
  destruct (95 =? c); [apply IH, Hs|simpl; rewrite Hc, Hs; reflexivity].
Qed.

Lemma drop_trailing_nd : forall t b, nd b t = true ->
  nd b (drop_trailing (N.eqb 95) t) = true.
Proof.
  induction t as [|c t IH]; intros b H; simpl in *; [reflexivity|].
  destruct (drop_trailing (N.eqb 95) t) as [|d t'] eqn:E.
  - destruct (95 =? c) eqn:E'; [reflexivity|].
    simpl; destruct (c =? 95) eqn:E''; [|reflexivity].
    apply N.eqb_eq in E''; subst; rewrite N.eqb_refl in E'; discriminate.
  - simpl.
    destruct (c =? 95).
    + apply andb_true_iff in H as [H1 H2]; rewrite H1; exact (IH true H2).
    + exact (IH false H).
Qed.

Lemma drop_trailing_nt : forall t, nt (drop_trailing (N.eqb 95) t) = true.
Proof.
  induction t as [|c t IH]; simpl; [reflexivity|].
  destruct (drop_trailing (N.eqb 95) t) as [|d t'] eqn:E.
  - destruct (N.eqb_spec 95 c); [reflexivity|].
    simpl; destruct (N.eqb_spec c 95); [lia|reflexivity].
  - exact IH.
Qed.

Lemma drop_trailing_out : forall t, forallb out_char t = true ->
  forallb out_char (drop_trailing (N.eqb 95) t) = true.
Proof.
  induction t as [|c t IH]; intros H; simpl in *; [reflexivity|].
  apply andb_true_iff in H as [Hc Hs].
  destruct (drop_trailing (N.eqb 95) t) as [|d t'] eqn:E.
  - destruct (95 =? c); simpl; rewrite ?Hc; reflexivity.
  - simpl; rewrite Hc; apply IH, Hs.
Qed.

(** The shape of [core s]. *)
Lemma core_shape : forall s,
  forallb out_char (core s) = true /\ nd true (core s) = true /\ nt (core s) = true.
Proof.
  intros s; unfold core, trim_underscores, collapse_underscores, collapse_spaces.
  split; [|split].
  - apply drop_trailing_out, drop_while_out, collapse_underscores_out,
      collapse_spaces_out, remove_special_keep.
  - apply drop_trailing_nd, drop_while_nd, collapse_underscores_nd.
  - apply drop_trailing_nt.
Qed.

(** Each step leaves a name of that shape as it is. *)
Lemma remove_special_id : forall t, forallb out_char t = true -> remove_special t = t.
Proof.
  induction t as [|c t IH]; intros H; simpl in *; [reflexivity|].
  apply andb_true_iff in H as [Hc Hs].
  unfold remove_special in *; simpl; rewrite (out_keep c Hc), IH; auto.
Qed.

Lemma collapse_spaces_id : forall t b, forallb out_char t = true ->
  replace_runs Analyze.is_js_space 95 b t = t.
Proof.
  induction t as [|c t IH]; intros b H; simpl in *; [reflexivity|].
  apply andb_true_iff in H as [Hc Hs].
  rewrite (out_char_not_space c Hc), IH; auto.
Qed.

Lemma collapse_underscores_id : forall t b, nd b t = true ->
  replace_runs (N.eqb 95) 95 b t = t.
Proof.
  induction t as [|c t IH]; intros b H; simpl in *; [reflexivity|].
  destruct (N.eqb_spec 95 c) as [<-|Hne].
  - rewrite N.eqb_refl in H; destruct b; [discriminate|].
    simpl in H; rewrite IH; auto.
  - destruct (N.eqb_spec c 95); [lia|]; rewrite IH; auto.
Qed.

Lemma drop_while_id : forall t, nd true t = true -> Analyze.drop_while (N.eqb 95) t = t.
Proof.
  intros [|c t] H; simpl in *; [reflexivity|].
  destruct (N.eqb_spec 95 c) as [<-|Hne]; [rewrite N.eqb_refl in H; discriminate|].
  reflexivity.
Qed.

Lemma drop_trailing_id : forall t, nt t = true -> drop_trailing (N.eqb 95) t = t.
Proof.
  induction t as [|c t IH]; intros H; [reflexivity|].
  destruct t as [|d t].
  - simpl in *; destruct (N.eqb_spec 95 c) as [<-|]; [discriminate|reflexivity].
  - change (nt (d :: t) = true) in H.
    change (drop_trailing (N.eqb 95) (c :: d :: t)) with
      (match drop_trailing (N.eqb 95) (d :: t) with
       | [] => if 95 =? c then [] else [c]
       | _ => c :: drop_trailing (N.eqb 95) (d :: t)
       end).
    rewrite (IH H); reflexivity.
Qed.

Lemma core_id : forall t,
  forallb out_char t = true -> nd true t = true -> nt t = true -> core t = t.
Proof.
  intros t H1 H2 H3; unfold core, trim_underscores, collapse_underscores, collapse_spaces.
  rewrite remove_special_id, collapse_spaces_id, collapse_underscores_id,
    drop_while_id, drop_trailing_id; auto.
  apply nd_weaken, H2.
Qed.

Lemma drop_while_space_id : forall t, forallb out_char t = true ->
  Analyze.drop_while Analyze.is_js_space t = t.
Proof.
  intros [|c t] H; simpl in *; [reflexivity|].
  apply andb_true_iff in H as [Hc _]; rewrite (out_char_not_space c Hc); reflexivity.
Qed.

Lemma trim_id : forall t, forallb out_char t = true -> Analyze.trim t = t.
Proof.
  intros t H; unfold Analyze.trim.
  rewrite (drop_while_space_id t H), drop_while_space_id, rev_involutive; [reflexivity|].
  apply forallb_forall; intros c Hc; apply in_rev in Hc.
  rewrite forallb_forall in H; apply H, Hc.
Qed.

Lemma forallb_firstn : forall {A} (f : A -> bool) n l,
  forallb f l = true -> forallb f (firstn n l) = true.
Proof.
  intros A f n l H; apply forallb_forall; intros x Hx.
  rewrite forallb_forall in H; apply H.
  rewrite <- (firstn_skipn n l); apply in_or_app; left; exact Hx.
Qed.

(** [safeFilename] through [core]. *)
Lemma safeFilename_core : forall s, truthy s = true ->
  safeFilename s = let r := firstn 100 (core s) in if truthy r then r else js "download".
Proof.
  intros s Hs; unfold safeFilename; rewrite Hs; simpl negb; cbv iota zeta.
  rewrite trim_id; [reflexivity|].
  apply forallb_firstn, (proj1 (core_shape s)).
Qed.

Lemma safeFilename_download : safeFilename (js "download") = js "download".
Proof. vm_compute; reflexivity. Qed.

Lemma safeFilename_empty : safeFilename [] = js "download".
Proof. reflexivity. Qed.

(** C10. [safeFilename] always returns a non-empty name of at most 100
    characters from [[A-Za-z0-9_.-]] (whitespace runs become one [_],
    other characters are dropped, ["download"] when nothing is left); it
    is idempotent on names whose sanitized form before the cap has at
    most 100 characters. The cap [slice(0, 100)] is applied last, after
    the extension: a 97-letter title with extension ".mp4" comes out
    with extension ".mp" (although the download route relies on
    "safeFilename preserves dots, so the extension will be kept"), and a
    cut that ends on an [_] gives a name that a second pass shortens. *)
Theorem safeFilename_cap_drops_extension :
  (forall s,
     forallb out_char (safeFilename s) = true
     /\ (List.length (safeFilename s) <= 100)%nat
     /\ truthy (safeFilename s) = true
     /\ (truthy s = false -> safeFilename s = js "download")
     /\ ((List.length (core s) <= 100)%nat ->
         safeFilename (safeFilename s) = safeFilename s))
  /\ safeFilename (repeat 97 97 ++ js ".mp4") = repeat 97 97 ++ js ".mp"
  /\ safeFilename (safeFilename (repeat 97 99 ++ js " b"))
     <> safeFilename (repeat 97 99 ++ js " b").
Proof.
  split; [|split; [vm_compute; reflexivity | vm_compute; discriminate]].
  intros s; destruct s as [|c s'] eqn:Hs.
  - rewrite safeFilename_empty, safeFilename_download.
    split; [vm_compute; reflexivity|]; split; [vm_compute; lia|].
    split; [reflexivity|]; split; intros; reflexivity.
  - rewrite <- Hs; assert (Ht : truthy s = true) by (rewrite Hs; reflexivity).
    destruct (core_shape s) as [Ho [Hn Hnt]].
    rewrite (safeFilename_core s Ht); cbv zeta.
    destruct (truthy (firstn 100 (core s))) eqn:T.
    + split; [apply forallb_firstn, Ho|]; split.
      { rewrite length_firstn; lia. }
      split; [exact T|]; split; [congruence|].
      intros Hl; rewrite firstn_all2 in T |- * by exact Hl.
      rewrite (safeFilename_core (core s) T), core_id by assumption; cbv zeta.
      rewrite firstn_all2 by exact Hl; rewrite T; reflexivity.
    + rewrite safeFilename_download.
      split; [vm_compute; reflexivity|]; split; [vm_compute; lia|].
      split; [reflexivity|]; split; [congruence|]; intros; reflexivity.
Qed.

Lemma fn_examples :
  safeFilename (repeat 97 97 ++ js ".mp4") = repeat 97 97 ++ js ".mp"
  /\ safeFilename (repeat 97 99 ++ js " b") = repeat 97 99 ++ js "_"
  /\ safeFilename (repeat 97 99 ++ js "_") = repeat 97 99
  /\ safeFilename (js "My Video: Part 1 (HD).mp4") = js "My_Video_Part_1_HD.mp4"
  /\ safeFilename (js "__ a  b __") = js "a_b"
  /\ safeFilename (js "???") = js "download".
Proof. vm_compute. repeat split. Qed.

End FilenameClaims.

(** * Further properties of the services *)

Module QueueExtras.
Import Queue QueueProofs QueueMore.
Local Open Scope Z_scope.

Lemma lookup_map_id : forall (g : QueueJob -> QueueJob) k l,
  (forall j, id (g j) = id j) ->
  lookup k (map g l) = option_map g (lookup k l).
Proof.
  intros g k l Hg; induction l as [|j l IH]; simpl; [reflexivity|].
  unfold lookup in *; simpl; rewrite Hg.
  destruct (str_eqb (id j) k); [reflexivity | exact IH].
Qed.

Lemma update_keeps_id : forall x f,
  (forall j, id (f j) = id j) ->
  forall j, id ((fun j => if str_eqb (id j) x then f j else j) j) = id j.
Proof. intros x f Hf j; simpl; destruct (str_eqb (id j) x); auto. Qed.

Lemma lookup_update_here : forall x f l j,
  (forall j, id (f j) = id j) -> lookup x l = Some j ->
  lookup x (update x f l) = Some (f j).
Proof.
  intros x f l j Hf Hl; unfold update.
  rewrite lookup_map_id by (apply update_keeps_id; exact Hf).
  rewrite Hl; simpl; apply lookup_some in Hl as [_ ->].
  rewrite str_eqb_refl; reflexivity.
Qed.

Lemma lookup_update_elsewhere : forall x y f l,
  (forall j, id (f j) = id j) -> y <> x ->
  lookup y (update x f l) = lookup y l.
Proof.
  intros x y f l Hf Hne; unfold update.
  rewrite lookup_map_id by (apply update_keeps_id; exact Hf).
  destruct (lookup y l) as [j|] eqn:Hl; simpl; [|reflexivity].
  apply lookup_some in Hl as [_ Hj].
  destruct (str_eqb (id j) x) eqn:E; [|reflexivity].
  apply str_eqb_eq in E; congruence.
Qed.

Lemma lookup_filter_kept : forall p x l j,
  lookup x l = Some j -> p j = true -> lookup x (filter p l) = Some j.
Proof.
  intros p x l j; induction l as [|a l IH]; intros Hl Hp; [discriminate|].
  unfold lookup in *; simpl in Hl |- *.
  destruct (str_eqb (id a) x) eqn:E.
  - injection Hl as ->; rewrite Hp; simpl; rewrite E; reflexivity.
  - destruct (p a); simpl; [rewrite E|]; apply IH; assumption.
Qed.

Lemma lookup_app_new : forall x l j,
  lookup x l = None -> id j = x -> lookup x (l ++ [j]) = Some j.
Proof.
  intros x l j; induction l as [|a l IH]; intros Hl Hj.
  - unfold lookup; simpl; rewrite Hj, str_eqb_refl; reflexivity.
  - unfold lookup in *; simpl in Hl |- *.
    destruct (str_eqb (id a) x); [discriminate|]; apply IH; assumption.
Qed.

Lemma lookup_app_old : forall x l j,
  id j <> x -> lookup x (l ++ [j]) = lookup x l.
Proof.
  intros x l j Hj; induction l as [|a l IH].
  - unfold lookup; simpl; apply str_eqb_neq in Hj; rewrite Hj; reflexivity.
  - unfold lookup in *; simpl.
    destruct (str_eqb (id a) x); [reflexivity|]; exact IH.
Qed.

Lemma lookup_app_some : forall x l l' j,
  lookup x l = Some j -> lookup x (l ++ l') = Some j.
Proof.
  intros x l l' j; induction l as [|a l IH]; intros H; [discriminate|].
  unfold lookup in *; simpl in *; destruct (str_eqb (id a) x);
    [exact H | apply IH, H].
Qed.

Lemma NoDup_id_unique : forall l a b,
  NoDup (map id l) -> In a l -> In b l -> id a = id b -> a = b.
Proof.
  induction l as [|c l IH]; intros a b Hnd Ha Hb Hab; [destruct Ha|].
  simpl in Hnd; apply NoDup_cons_iff in Hnd as [Hni Hnd].
  destruct Ha as [<- | Ha], Hb as [<- | Hb]; auto.
  - exfalso; apply Hni; rewrite Hab; apply in_map, Hb.
  - exfalso; apply Hni; rewrite <- Hab; apply in_map, Ha.
Qed.

Lemma is_active_iff : forall st,
  (status_eqb st Downloading || status_eqb st Converting) = is_active st.
Proof. intros []; reflexivity. Qed.

(** The invariant of [QueueProofs] survives the two operations. *)
Lemma setConvertJobInputFile_inv : forall s x f,
  Inv s -> Inv (snd (setConvertJobInputFile s x f)).
Proof.
  intros s x f [Hnd Hok]; unfold setConvertJobInputFile.
  destruct (lookup x (jobs s)) as [j|]; [|split; assumption].
  destruct (negb (jobtype_eqb (type j) Convert)); [split; assumption|].
  simpl; split; simpl.
  - rewrite update_id; [exact Hnd | reflexivity].
  - unfold update; apply actok_map; [|exact Hok].
    intros j0; destruct (str_eqb (id j0) x); simpl; auto.
Qed.

Lemma NoDup_map_filter : forall {A B} (g : A -> B) p l,
  NoDup (map g l) -> NoDup (map g (filter p l)).
Proof.
  intros A B g p l; induction l as [|a l IH]; intros H; simpl; [constructor|].
  inversion H as [|? ? Hni Hnd]; subst.
  destruct (p a); simpl; [|apply IH, Hnd].
  constructor; [|apply IH, Hnd].
  intros Hin; apply Hni; apply in_map_iff in Hin as [b [Hb Hin]].
  apply filter_In in Hin as [Hin _]; rewrite <- Hb; apply in_map, Hin.
Qed.

Lemma cleanupOldJobs_inv : forall s maxAge now,
  Inv s -> Inv (cleanupOldJobs s maxAge now).
Proof.
  intros s maxAge now [Hnd Hok]; split; simpl.
  - apply NoDup_map_filter, Hnd.
  - intros j Hin Hact; apply filter_In in Hin as [Hin _]; apply Hok; assumption.
Qed.

Lemma reachable_all_inv : forall s, reachable_all s -> Inv s.
Proof.
  induction 1 as [|s s' _ IH Hs].
  - split; [constructor | intros j []].
  - destruct Hs as [s s' Hs | s x f | s maxAge now].
    + eapply step_inv; eauto.
    + apply setConvertJobInputFile_inv, IH.
    + apply cleanupOldJobs_inv, IH.
Qed.

(** X1 (getQueueState). The four counters of the queue state (queued, processing, completed, failed) add up to the number of jobs in the map: every status falls in exactly one of them. *)
Theorem queue_state_counts_partition : forall s,
  let st := getQueueState s in
  (queuedCount st + processingCount st + completedCount st + failedCount st)%nat
  = List.length (getAllJobs s).
Proof.
  intros s; simpl; unfold getAllJobs; induction (jobs s) as [|j l IH];
    simpl; [reflexivity|].
  destruct (status j); simpl; lia.
Qed.

(** X2 (getQueueState). In every state reachable by the public queue operations (including setConvertJobInputFile and cleanupOldJobs), processingCount is at most 1, and [processing] names any job whose status is downloading or converting. *)
Theorem queue_state_single_processing : forall s, reachable_all s ->
  (processingCount (getQueueState s) <= 1)%nat
  /\ (forall j, In j (getAllJobs s) ->
        (status j = Downloading \/ status j = Converting) ->
        processing (getQueueState s) = Some (id j)).
Proof.
  intros s Hr; destruct (reachable_all_inv s Hr) as [Hnd Hok]; split.
  - simpl; unfold getAllJobs.
    rewrite (filter_ext _ (fun j => is_active (status j)))
      by (intros j; apply is_active_iff).
    eapply at_most_one_active; eauto.
  - intros j Hin Hst; simpl; apply Hok; [exact Hin|].
    destruct Hst as [-> | ->]; reflexivity.
Qed.


(** X3 (cleanupOldJobs). Cleanup leaves the queue and the active job unchanged, keeps every job that is not finished, has no completedAt, or finished at most maxAge ago, and removes every completed or failed job that finished more than maxAge ago. *)
Theorem cleanupOldJobs_spec : forall s maxAge now,
  let s' := cleanupOldJobs s maxAge now in
  queue s' = queue s /\ activeJob s' = activeJob s
  /\ (forall x j, getJob s x = Some j ->
        (status j = Queued \/ status j = Downloading \/ status j = Converting
         \/ completedAt j = None
         \/ exists c, completedAt j = Some c /\ now - c <= maxAge) ->
        getJob s' x = Some j)
  /\ (forall j c, In j (getAllJobs s) ->
        (status j = Completed \/ status j = Failed) ->
        completedAt j = Some c -> maxAge < now - c ->
        ~ In j (getAllJobs s')).
Proof.
  intros s maxAge now; simpl; split; [reflexivity|]; split; [reflexivity|].
  split.
  - intros x j Hl Hc; unfold getJob in *; simpl.
    apply lookup_filter_kept; [exact Hl|].
    unfold is_old; destruct Hc as [H|[H|[H|[H|[c [H1 H2]]]]]];
      try (rewrite H; reflexivity).
    + rewrite H, andb_false_r; reflexivity.
    + rewrite H1; replace (maxAge <? now - c) with false by lia.
      rewrite andb_false_r; reflexivity.
  - intros j c _ Hst Hc Hage Hin; unfold getAllJobs in Hin; simpl in Hin.
    apply filter_In in Hin as [_ Hk].
    unfold is_old in Hk; rewrite Hc in Hk.
    replace (maxAge <? now - c) with true in Hk by lia.
    destruct Hst as [H|H]; rewrite H in Hk; discriminate.
Qed.

(** X4 (cleanupOldJobs, canJobStart). When the queued job at the head of the queue depends on a finished job that cleanup removes, the dependent job stays in the map and at the head, processQueue changes nothing, and startJob fails for every id: the queue is stuck. *)
Theorem cleanup_blocks_queue : forall s maxAge now x j d dj,
  NoDup (map id (jobs s)) ->
  hd_error (queue s) = Some x -> lookup x (jobs s) = Some j ->
  status j = Queued -> otruthy (dependsOn j) = Some d ->
  lookup d (jobs s) = Some dj -> is_old maxAge now dj = true ->
  let s' := cleanupOldJobs s maxAge now in
  getJob s' d = None
  /\ getJob s' x = Some j
  /\ processQueue s' = s'
  /\ (forall y dl t, startJob s' y dl t = (false, s')).
Proof.
  intros s maxAge now x j d dj Hnd Hq Hx Hj Hd Hdl Hold s'.
  assert (Hx' : lookup x (jobs s') = Some j).
  { apply lookup_filter_kept; [exact Hx|].
    unfold is_old; rewrite Hj; reflexivity. }
  assert (Hd' : lookup d (jobs s') = None).
  { destruct (lookup d (jobs s')) as [k|] eqn:E; [exfalso|reflexivity].
    apply lookup_some in E as [Hin Hk]; simpl in Hin.
    apply filter_In in Hin as [Hin Hkeep].
    apply lookup_some in Hdl as [Hin' Hid].
    assert (k = dj) by (apply (NoDup_id_unique (jobs s)); auto; congruence).
    subst k; rewrite Hold in Hkeep; discriminate. }
  assert (Hcan : canJobStart s' j = false).
  { unfold canJobStart; rewrite Hd, Hd'; reflexivity. }
  split; [exact Hd'|]; split; [exact Hx'|].
  assert (Hpq : processQueue s' = s').
  { destruct (queue s) as [|h t] eqn:Eq; [discriminate|].
    injection Hq as ->.
    unfold s', processQueue, cleanupOldJobs, upd_jobs in *; simpl in *.
    destruct (activeJob s); [reflexivity|].
    rewrite Eq; simpl; rewrite Hx'; reflexivity. }
  split; [exact Hpq|].
  intros y dl t; unfold startJob.
  change (queue s') with (queue s).
  destruct (lookup y (jobs s')) as [k|] eqn:Hy; [|reflexivity].
  destruct (is_none (activeJob s')); simpl; [|reflexivity].
  destruct (head_is (queue s) y) eqn:Hh; simpl; [|reflexivity].
  assert (y = x).
  { destruct (queue s) as [|h r]; [discriminate|].
    injection Hq as ->; apply str_eqb_eq in Hh; symmetry; exact Hh. }
  subst y; rewrite Hx' in Hy; injection Hy as <-; rewrite Hcan; reflexivity.
Qed.

(** X5 (setConvertJobInputFile). On a convert job it returns true and sets only that job's inputFile; on a missing job or a download job it returns false and changes nothing. *)
Theorem setConvertJobInputFile_spec : forall s x f,
  let r := setConvertJobInputFile s x f in
  match getJob s x with
  | Some j =>
      if jobtype_eqb (type j) Convert then
        fst r = true
        /\ getJob (snd r) x = Some (set_inputFile f j)
        /\ (forall y, y <> x -> getJob (snd r) y = getJob s y)
        /\ queue (snd r) = queue s /\ activeJob (snd r) = activeJob s
      else r = (false, s)
  | None => r = (false, s)
  end.
Proof.
  intros s x f r; unfold r, setConvertJobInputFile, getJob.
  destruct (lookup x (jobs s)) as [j|] eqn:Hl; [|reflexivity].
  destruct (jobtype_eqb (type j) Convert); simpl; [|reflexivity].
  split; [reflexivity|]; split; [|split; [|split; reflexivity]].
  - apply lookup_update_here; [reflexivity | exact Hl].
  - intros y Hy; apply lookup_update_elsewhere; [reflexivity | exact Hy].
Qed.


Lemma processQueue_admitted : forall js q a i k,
  lookup i js = Some k -> is_none a && head_is (q ++ [i]) i = true ->
  processQueue (mkQ js (q ++ [i]) a) = mkQ js (q ++ [i]) a.
Proof.
  intros js q a i k Hl H; destruct a as [y|]; [discriminate|].
  unfold processQueue; simpl in *.
  destruct q as [|h t]; simpl in *; [rewrite Hl; reflexivity|].
  apply str_eqb_eq in H; subst h; rewrite Hl; reflexivity.
Qed.

(** X6 (addDownloadJob). The returned id is the given jobId or else the generated one; an existing id returns (id, false) and changes nothing; otherwise a queued download job with that id is added at the tail of the queue, the active job and the other jobs unchanged. *)
Theorem addDownloadJob_admits : forall s u fid jobId gen now,
  let i := pick_id jobId gen in
  let r := addDownloadJob s u fid jobId gen now in
  fst (fst r) = i
  /\ match getJob s i with
     | Some _ => r = ((i, false), s)
     | None =>
         queue (snd r) = queue s ++ [i]
         /\ activeJob (snd r) = activeJob s
         /\ getJob (snd r) i = Some (mkJob i Download u (Some fid) None None
                                       None Queued now None None None None None)
         /\ (forall y, y <> i -> getJob (snd r) y = getJob s y)
     end.
Proof.
  intros s u fid jobId gen now i r; unfold r, addDownloadJob, getJob; fold i.
  destruct (lookup i (jobs s)) as [ej|] eqn:Hl; [split; reflexivity|].
  cbv zeta.
  set (j := mkJob i Download u (Some fid) None None None Queued now
              None None None None None).
  assert (Hj : lookup i (jobs s ++ [j]) = Some j)
    by (apply lookup_app_new; [exact Hl | reflexivity]).
  assert (Hother : forall y, y <> i -> lookup y (jobs s ++ [j]) = lookup y (jobs s))
    by (intros y Hy; apply lookup_app_old; simpl; congruence).
  split; [reflexivity|].
  cbn [activeJob queue jobs].
  destruct (is_none (activeJob s) && head_is (queue s ++ [i]) i) eqn:C; simpl.
  - rewrite (processQueue_admitted _ _ _ _ j Hj C); simpl.
    repeat split; auto.
  - repeat split; auto.
Qed.

(** X7 (addConvertJob). For a fresh id: a missing dependency d throws 'Dependency job d not found', a dependency d that is not a download job throws 'Dependency job d must be a download job', and otherwise (or without a dependency) a queued convert job is added at the tail of the queue. *)
Theorem addConvertJob_dependency_checks : forall s u tf dep inp jobId gen now,
  let i := pick_id jobId gen in
  let admitted :=
    exists b s', addConvertJob s u tf dep inp jobId gen now = Returns ((i, b), s')
      /\ queue s' = queue s ++ [i] /\ activeJob s' = activeJob s
      /\ getJob s' i = Some (mkJob i Convert u None (Some tf) inp dep Queued now
                               None None None None None) in
  getJob s i = None ->
  match otruthy dep with
  | None => admitted
  | Some d =>
      match getJob s d with
      | None => addConvertJob s u tf dep inp jobId gen now
                = Throws (js "Dependency job " ++ d ++ js " not found")
      | Some dj =>
          if jobtype_eqb (type dj) Download then admitted
          else addConvertJob s u tf dep inp jobId gen now
               = Throws (js "Dependency job " ++ d ++ js " must be a download job")
      end
  end.
Proof.
  intros s u tf dep inp jobId gen now i admitted Hl; unfold getJob in Hl.
  assert (Hadm : (match otruthy dep with
                  | None => None
                  | Some d =>
                      match lookup d (jobs s) with
                      | None => Some (js "Dependency job " ++ d ++ js " not found")
                      | Some dj =>
                          if jobtype_eqb (type dj) Download then None
                          else Some (js "Dependency job " ++ d
                                     ++ js " must be a download job")
                      end
                  end) = None -> admitted).
  { intros Hc; unfold admitted, addConvertJob, getJob; fold i; rewrite Hl.
    cbv zeta; rewrite Hc.
    set (j := mkJob i Convert u None (Some tf) inp dep Queued now
                None None None None None).
    assert (Hj : lookup i (jobs s ++ [j]) = Some j)
      by (apply lookup_app_new; [exact Hl | reflexivity]).
    cbn [activeJob queue jobs].
    destruct (is_none (activeJob s) && head_is (queue s ++ [i]) i
              && canJobStart (mkQ (jobs s ++ [j]) (queue s ++ [i]) (activeJob s)) j)
      eqn:C.
    - apply andb_true_iff in C as [C _].
      rewrite (processQueue_admitted _ _ _ _ j Hj C).
      exists true, (mkQ (jobs s ++ [j]) (queue s ++ [i]) (activeJob s)).
      repeat split; exact Hj.
    - exists false, (mkQ (jobs s ++ [j]) (queue s ++ [i]) (activeJob s)).
      repeat split; exact Hj. }
  unfold getJob; destruct (otruthy dep) as [d|] eqn:Hd; [|apply Hadm; reflexivity].
  destruct (lookup d (jobs s)) as [dj|] eqn:Hdl.
  - destruct (jobtype_eqb (type dj) Download) eqn:T; [apply Hadm; reflexivity|].
    unfold addConvertJob; fold i; rewrite Hl; cbv zeta; rewrite Hd, Hdl, T.
    reflexivity.
  - unfold addConvertJob; fold i; rewrite Hl; cbv zeta; rewrite Hd, Hdl.
    reflexivity.
Qed.

(** X8 (addConvertJob, canJobStart). A convert job whose dependency has already failed is still admitted as queued, and in an otherwise idle queue no job can ever be started: startJob fails for every id. *)
Theorem failed_dependency_blocks_queue : forall s u tf d inp jobId gen now dj,
  getJob s (pick_id jobId gen) = None ->
  truthy d = true -> getJob s d = Some dj ->
  type dj = Download -> status dj = Failed ->
  queue s = [] -> activeJob s = None ->
  exists s', addConvertJob s u tf (Some d) inp jobId gen now
             = Returns ((pick_id jobId gen, false), s')
    /\ queue s' = [pick_id jobId gen]
    /\ (forall y dl t, startJob s' y dl t = (false, s')).
Proof.
  intros s u tf d inp jobId gen now dj Hl Hd Hdl Ht Hst Hq Ha.
  unfold getJob in Hl, Hdl.
  set (i := pick_id jobId gen).
  change (lookup i (jobs s) = None) in Hl.
  set (j := mkJob i Convert u None (Some tf) inp (Some d) Queued now
              None None None None None).
  set (s' := mkQ (jobs s ++ [j]) [i] None).
  assert (Hj : lookup i (jobs s ++ [j]) = Some j)
    by (apply lookup_app_new; [exact Hl | reflexivity]).
  assert (Hcan : canJobStart s' j = false).
  { unfold canJobStart; simpl; unfold otruthy; rewrite Hd.
    rewrite (lookup_app_some _ _ _ _ Hdl), Hst; reflexivity. }
  exists s'.
  assert (Hr : addConvertJob s u tf (Some d) inp jobId gen now = Returns ((i, false), s')).
  { unfold addConvertJob; fold i; rewrite Hl; cbv zeta.
    unfold otruthy at 1; rewrite Hd, Hdl, Ht; simpl.
    rewrite Hq, Ha; simpl; rewrite str_eqb_refl; simpl.
    fold j; fold s'; rewrite Hcan; reflexivity. }
  split; [exact Hr|]; split; [reflexivity|].
  intros y dl t; unfold startJob.
  destruct (lookup y (jobs s')) as [k|] eqn:Hy; [|reflexivity].
  change (queue s') with [i]; change (activeJob s') with (@None jsstr).
  cbn [is_none negb head_is].
  destruct (str_eqb i y) eqn:Hh; cbn [negb]; [|reflexivity].
  apply str_eqb_eq in Hh; subst y.
  simpl in Hy; rewrite Hj in Hy; injection Hy as <-.
  rewrite Hcan; reflexivity.
Qed.


Lemma onProgress_cancelled_shape : forall s p now,
  Progress.status p = Progress.PCancelled ->
  (exists g, (forall k, id (g k) = id k)
             /\ jobs (onProgress s p now) = map g (jobs s))
  /\ queue (onProgress s p now) = queue s
  /\ activeJob (onProgress s p now) = activeJob s.
Proof.
  intros s p now Hp; unfold onProgress.
  destruct (find_by_download _ _) as [j|].
  - rewrite Hp; split; [|split; reflexivity].
    eexists; split; [|reflexivity].
    apply update_keeps_id; reflexivity.
  - split; [|split; reflexivity].
    exists (fun k => k); split; [reflexivity | symmetry; apply map_id].
Qed.

Lemma cancelJob_entry_shape : forall s bus x j now,
  let e := cancelJob_entry s bus x j now in
  exists g, (forall k, id (g k) = id k)
    /\ jobs e = update x (set_failed (Some (js "Cancelled by user")) now)
                  (map g (jobs s))
    /\ queue e = remove_first x (queue s)
    /\ activeJob e = (if ostr_eqb (activeJob s) x then None else activeJob s).
Proof.
  intros s bus x j now e; unfold e, cancelJob_entry; cbn [activeJob queue jobs].
  set (s1 := mkQ (jobs s) (remove_first x (queue s)) (activeJob s)).
  destruct (ostr_eqb (activeJob s) x).
  - set (s1' := match otruthy (downloadId j) with
                | Some dl =>
                    match Progress.getProgress bus dl with
                    | Some p => onProgress s1 (Progress.with_status Progress.PCancelled p) now
                    | None => s1
                    end
                | None => s1
                end).
    assert (H : (exists g, (forall k, id (g k) = id k) /\ jobs s1' = map g (jobs s1))
                /\ queue s1' = queue s1).
    { unfold s1'; destruct (otruthy (downloadId j)) as [dl|];
        [destruct (Progress.getProgress bus dl) as [p|]|].
      - destruct (onProgress_cancelled_shape s1
                    (Progress.with_status Progress.PCancelled p) now eq_refl)
          as [Hg [Hq _]]; split; assumption.
      - split; [|reflexivity].
        exists (fun k => k); split; [reflexivity | symmetry; apply map_id].
      - split; [|reflexivity].
        exists (fun k => k); split; [reflexivity | symmetry; apply map_id]. }
    destruct H as [[g [Hg Hj]] Hq]; exists g; simpl.
    rewrite Hj, Hq; split; [exact Hg|]; split; [|split]; reflexivity.
  - exists (fun k => k); simpl; rewrite map_id; split; [reflexivity|].
    split; [|split]; reflexivity.
Qed.

Lemma remove_first_not_in : forall x q, NoDup q -> ~ In x (remove_first x q).
Proof.
  intros x q; induction q as [|h q IH]; intros Hnd; simpl; [auto|].
  apply NoDup_cons_iff in Hnd as [Hni Hnd].
  destruct (str_eqb h x) eqn:E.
  - apply str_eqb_eq in E; subst h; exact Hni.
  - apply str_eqb_neq in E; intros [H | H]; [congruence | exact (IH Hnd H)].
Qed.

Lemma drain_incl : forall js q y, In y (drain js q) -> In y q.
Proof.
  intros js q y; induction q as [|h q IH]; simpl; [auto|].
  destruct (lookup h js); [auto | intros H; right; apply IH, H].
Qed.

Lemma processQueue_queue_incl : forall s y,
  In y (queue (processQueue s)) -> In y (queue s).
Proof.
  intros [l q a] y; unfold processQueue; simpl; destruct a; simpl;
    [auto | apply drain_incl].
Qed.

(** X9 (cancelJob). Cancelling a missing job returns false and changes nothing; otherwise it returns true, marks the job failed with error Cancelled by user and completedAt now, the job is no longer active, another active job stays active, and the job leaves a duplicate-free queue. *)
Theorem cancelJob_spec : forall s bus x now,
  let r := cancelJob s bus x now in
  match getJob s x with
  | None => r = (false, s)
  | Some _ =>
      fst r = true
      /\ (exists j', getJob (snd r) x = Some j' /\ status j' = Failed
                     /\ error j' = Some (js "Cancelled by user")
                     /\ completedAt j' = Some now)
      /\ activeJob (snd r) <> Some x
      /\ (activeJob s <> Some x -> activeJob (snd r) = activeJob s)
      /\ (NoDup (queue s) -> ~ In x (queue (snd r)))
  end.
Proof.
  intros s bus x now r; unfold r, cancelJob, getJob.
  destruct (lookup x (jobs s)) as [j|] eqn:Hl; [|reflexivity].
  cbn [fst snd]; split; [reflexivity|].
  destruct (cancelJob_entry_shape s bus x j now) as [g [Hg [Hj [Hq Ha]]]].
  rewrite processQueue_jobs, processQueue_active.
  split; [|split; [|split]].
  - eexists; split.
    + rewrite Hj; apply lookup_update_here; [reflexivity|].
      rewrite lookup_map_id by exact Hg; rewrite Hl; reflexivity.
    + repeat split.
  - rewrite Ha; destruct (activeJob s) as [y|] eqn:E; simpl; [|discriminate].
    destruct (str_eqb y x) eqn:Exy; [discriminate|].
    apply str_eqb_neq in Exy; congruence.
  - intros Hne; rewrite Ha; destruct (activeJob s) as [y|]; simpl; [|reflexivity].
    destruct (str_eqb y x) eqn:Exy; [apply str_eqb_eq in Exy; congruence|reflexivity].
  - intros Hnd Hin; apply processQueue_queue_incl in Hin.
    rewrite Hq in Hin; exact (remove_first_not_in x (queue s) Hnd Hin).
Qed.

(** X10 (startJob, completeJob). After a successful start and a completion of the same job, no job is active, the job carries the start time, download id and completion time with status completed, and every other job is unchanged. *)
Theorem start_then_complete : forall s x dl t1 t2 j,
  getJob s x = Some j -> fst (startJob s x dl t1) = true ->
  let s2 := completeJob (snd (startJob s x dl t1)) x t2 in
  activeJob s2 = None
  /\ getJob s2 x
     = Some (set_completed t2
               (set_started (if jobtype_eqb (type j) Download
                             then Downloading else Converting) t1 dl j))
  /\ (forall y, y <> x -> getJob s2 y = getJob s y).
Proof.
  intros s x dl t1 t2 j Hl Hs s2; unfold getJob in *.
  unfold s2; clear s2; unfold startJob in *; rewrite Hl in *.
  destruct (negb (is_none (activeJob s))); [discriminate|].
  destruct (negb (head_is (queue s) x)); [discriminate|].
  destruct (negb (canJobStart s j)); [discriminate|].
  cbn [snd]; set (st := if jobtype_eqb (type j) Download then Downloading else Converting).
  set (l1 := update x (set_started st t1 dl) (jobs s)).
  assert (H1 : lookup x l1 = Some (set_started st t1 dl j))
    by (apply lookup_update_here; [reflexivity | exact Hl]).
  unfold completeJob; cbn [jobs]; rewrite H1.
  unfold finishJob, completeJob_mark, notifyDependentJobs.
  assert (E : forall b : bool,
            (if b then upd_jobs (mkQ l1 (tl (queue s)) (Some x))
                         (update x (set_completed t2) l1)
             else upd_jobs (mkQ l1 (tl (queue s)) (Some x))
                    (update x (set_completed t2) l1))
            = mkQ (update x (set_completed t2) l1) (tl (queue s)) (Some x))
    by (intros []; reflexivity).
  rewrite E; clear E.
  rewrite processQueue_jobs, processQueue_active; cbn [finish_clear jobs activeJob].
  simpl clear_active; rewrite str_eqb_refl.
  split; [reflexivity|]; split.
  - apply lookup_update_here; [reflexivity | exact H1].
  - intros y Hy; unfold l1.
    rewrite !lookup_update_elsewhere by (reflexivity || exact Hy).
    reflexivity.
Qed.

Import QueueScenarios QueueRuns.

Lemma queue_state_single_processing_witness :
  reachable_all (cleanupOldJobs sDone 10 100)
  /\ ((processingCount (getQueueState (cleanupOldJobs sDone 10 100)) <= 1)%nat
      /\ (forall j, In j (getAllJobs (cleanupOldJobs sDone 10 100)) ->
            (status j = Downloading \/ status j = Converting) ->
            processing (getQueueState (cleanupOldJobs sDone 10 100)) = Some (id j))).
Proof.
  assert (HA : reachable_all sA).
  { eapply reach_all_step; [apply reach_all_init | apply StCore; unfold sA; apply StAddDownload]. }
  assert (HDC : reachable_all sDC).
  { unfold sDC.
    destruct (addConvertJob sA (js "https://e.com/v") Mp3 (Some (js "a")) None
                (Some (js "c")) (js "g1") 1) eqn:E; [|exact HA].
    eapply reach_all_step; [exact HA | apply StCore; eapply StAddConvert; exact E]. }
  assert (Hr : reachable_all (cleanupOldJobs sDone 10 100)).
  { eapply reach_all_step; [|apply StCleanup].
    eapply reach_all_step; [|apply StCore, StComplete].
    eapply reach_all_step; [exact HDC | apply StCore, StStart]. }
  split; [exact Hr | exact (queue_state_single_processing _ Hr)].
Defined.

Lemma cleanup_blocks_queue_witness :
  NoDup (map id (jobs sDone))
  /\ hd_error (queue sDone) = Some (js "c")
  /\ lookup (js "c") (jobs sDone) = Some (job_of sDone (js "c"))
  /\ status (job_of sDone (js "c")) = Queued
  /\ otruthy (dependsOn (job_of sDone (js "c"))) = Some (js "a")
  /\ lookup (js "a") (jobs sDone) = Some (job_of sDone (js "a"))
  /\ is_old 10 100 (job_of sDone (js "a")) = true
  /\ (getJob (cleanupOldJobs sDone 10 100) (js "a") = None
      /\ getJob (cleanupOldJobs sDone 10 100) (js "c") = Some (job_of sDone (js "c"))
      /\ processQueue (cleanupOldJobs sDone 10 100) = cleanupOldJobs sDone 10 100
      /\ (forall y dl t, startJob (cleanupOldJobs sDone 10 100) y dl t
                         = (false, cleanupOldJobs sDone 10 100))).
Proof.
  assert (H1 : NoDup (map id (jobs sDone))).
  { vm_compute; constructor; [|constructor; [intros []|constructor]].
    intros [H|[]]; discriminate. }
  assert (H2 : hd_error (queue sDone) = Some (js "c")) by (vm_compute; reflexivity).
  assert (H3 : lookup (js "c") (jobs sDone) = Some (job_of sDone (js "c")))
    by (vm_compute; reflexivity).
  assert (H4 : status (job_of sDone (js "c")) = Queued) by (vm_compute; reflexivity).
  assert (H5 : otruthy (dependsOn (job_of sDone (js "c"))) = Some (js "a"))
    by (vm_compute; reflexivity).
  assert (H6 : lookup (js "a") (jobs sDone) = Some (job_of sDone (js "a")))
    by (vm_compute; reflexivity).
  assert (H7 : is_old 10 100 (job_of sDone (js "a")) = true) by (vm_compute; reflexivity).
  repeat (split; [assumption|]).
  exact (cleanup_blocks_queue sDone 10 100 (js "c") (job_of sDone (js "c")) (js "a")
           (job_of sDone (js "a")) H1 H2 H3 H4 H5 H6 H7).
Defined.

Lemma addConvertJob_dependency_checks_witness :
  getJob sA (pick_id (Some (js "c")) (js "g")) = None
  /\ addConvertJob sA (js "https://e.com/v") Mp3 (Some (js "z")) None (Some (js "c"))
       (js "g") 1 = Throws (js "Dependency job " ++ js "z" ++ js " not found").
Proof.
  assert (H : getJob sA (pick_id (Some (js "c")) (js "g")) = None) by (vm_compute; reflexivity).
  split; [exact H|].
  exact (addConvertJob_dependency_checks sA (js "https://e.com/v") Mp3 (Some (js "z")) None
           (Some (js "c")) (js "g") 1 H).
Defined.

Lemma failed_dependency_blocks_queue_witness :
  getJob sFailedA (pick_id (Some (js "c")) (js "g")) = None
  /\ truthy (js "a") = true
  /\ getJob sFailedA (js "a") = Some (job_of sFailedA (js "a"))
  /\ type (job_of sFailedA (js "a")) = Download
  /\ status (job_of sFailedA (js "a")) = Failed
  /\ queue sFailedA = [] /\ activeJob sFailedA = None
  /\ (exists s', addConvertJob sFailedA (js "https://e.com/v") Mp3 (Some (js "a")) None
                   (Some (js "c")) (js "g") 4
                 = Returns ((pick_id (Some (js "c")) (js "g"), false), s')
        /\ queue s' = [pick_id (Some (js "c")) (js "g")]
        /\ (forall y dl t, startJob s' y dl t = (false, s'))).
Proof.
  assert (H1 : getJob sFailedA (pick_id (Some (js "c")) (js "g")) = None)
    by (vm_compute; reflexivity).
  assert (H2 : truthy (js "a") = true) by (vm_compute; reflexivity).
  assert (H3 : getJob sFailedA (js "a") = Some (job_of sFailedA (js "a")))
    by (vm_compute; reflexivity).
  assert (H4 : type (job_of sFailedA (js "a")) = Download) by (vm_compute; reflexivity).
  assert (H5 : status (job_of sFailedA (js "a")) = Failed) by (vm_compute; reflexivity).
  assert (H6 : queue sFailedA = []) by (vm_compute; reflexivity).
  assert (H7 : activeJob sFailedA = None) by (vm_compute; reflexivity).
  repeat (split; [assumption|]).
  exact (failed_dependency_blocks_queue sFailedA (js "https://e.com/v") Mp3 (js "a") None
           (Some (js "c")) (js "g") 4 (job_of sFailedA (js "a")) H1 H2 H3 H4 H5 H6 H7).
Defined.

Lemma start_then_complete_witness :
  getJob sDC (js "a") = Some (job_of sDC (js "a"))
  /\ fst (startJob sDC (js "a") (js "a") 2) = true
  /\ (activeJob (completeJob (snd (startJob sDC (js "a") (js "a") 2)) (js "a") 5) = None
      /\ getJob (completeJob (snd (startJob sDC (js "a") (js "a") 2)) (js "a") 5) (js "a")
         = Some (set_completed 5
                   (set_started (if jobtype_eqb (type (job_of sDC (js "a"))) Download
                                 then Downloading else Converting) 2 (js "a")
                      (job_of sDC (js "a"))))
      /\ (forall y, y <> js "a" ->
            getJob (completeJob (snd (startJob sDC (js "a") (js "a") 2)) (js "a") 5) y
            = getJob sDC y)).
Proof.
  assert (H1 : getJob sDC (js "a") = Some (job_of sDC (js "a"))) by (vm_compute; reflexivity).
  assert (H2 : fst (startJob sDC (js "a") (js "a") 2) = true) by (vm_compute; reflexivity).
  split; [exact H1|]; split; [exact H2|].
  exact (start_then_complete sDC (js "a") (js "a") 2 5 (job_of sDC (js "a")) H1 H2).
Defined.

End QueueExtras.


Module ProgressExtras.
Import Progress ProgressMore.
Local Open Scope Z_scope.

Lemma find_key_map : forall (h : jsstr * DownloadSession -> jsstr * DownloadSession) y l,
  (forall kv, fst (h kv) = fst kv) ->
  find (fun kv => str_eqb (fst kv) y) (map h l)
  = option_map h (find (fun kv => str_eqb (fst kv) y) l).
Proof.
  intros h y l Hh; induction l as [|kv l IH]; simpl; [reflexivity|].
  rewrite Hh; destruct (str_eqb (fst kv) y); [reflexivity | exact IH].
Qed.

Lemma put_keeps_key : forall dl se p kv,
  fst ((fun kv => if str_eqb (fst kv) dl then (fst kv, set_sess_progress p se) else kv) kv)
  = fst kv.
Proof. intros dl se p kv; simpl; destruct (str_eqb (fst kv) dl); reflexivity. Qed.

Lemma get_put_same : forall dl se p b,
  get dl b <> None -> get dl (put_and_emit dl se p b) = Some (set_sess_progress p se).
Proof.
  intros dl se p b H; unfold get, put_and_emit in *; simpl.
  rewrite find_key_map by apply put_keeps_key.
  destruct (find _ (sessions b)) as [[k v]|] eqn:E; [|congruence].
  simpl; apply find_some in E as [_ E]; simpl in E; rewrite E; reflexivity.
Qed.

Lemma get_put_other : forall dl se p b y,
  y <> dl -> get y (put_and_emit dl se p b) = get y b.
Proof.
  intros dl se p b y Hy; unfold get, put_and_emit; simpl.
  rewrite find_key_map by apply put_keeps_key.
  destruct (find _ (sessions b)) as [[k v]|] eqn:E; [|reflexivity].
  simpl; apply find_some in E as [_ E]; simpl in E.
  apply str_eqb_eq in E; subst k.
  apply str_eqb_neq in Hy; rewrite Hy; reflexivity.
Qed.

Lemma get_snoc_new : forall b i se,
  get i b = None -> get i (mkBus (sessions b ++ [(i, se)]) (emitted b)) = Some se.
Proof.
  intros [l em] i se; unfold get; simpl; induction l as [|kv l IH]; intros H.
  - simpl; rewrite str_eqb_refl; reflexivity.
  - simpl in *; destruct (str_eqb (fst kv) i); [destruct kv; discriminate|].
    apply IH, H.
Qed.

Lemma get_snoc_other : forall b i se y,
  y <> i -> get y (mkBus (sessions b ++ [(i, se)]) (emitted b)) = get y b.
Proof.
  intros [l em] i se y Hy; unfold get; simpl; induction l as [|kv l IH].
  - simpl; assert (Hne : i <> y) by congruence.
    apply str_eqb_neq in Hne; rewrite Hne; reflexivity.
  - simpl; destruct (str_eqb (fst kv) y); [reflexivity | exact IH].
Qed.

(** X11 (createSession). The new session's progress starts at zero bytes, with null total, null percentage and status downloading; it is appended under the chosen download id, and earlier sessions under other ids are unchanged. *)
Theorem createSession_spec : forall b u fid dlo gen now,
  let i := match otruthy dlo with Some x => x | None => gen end in
  let r := createSession b u fid dlo gen now in
  fst r = i /\ emitted (snd r) = emitted b
  /\ match getSession b i with
     | Some _ => snd r = b
     | None =>
         getSession (snd r) i
         = Some (mkSession i u fid (mkProgress i 0 None None PDownloading None) now)
         /\ (forall y, y <> i -> getSession (snd r) y = getSession b y)
     end.
Proof.
  intros b u fid dlo gen now i r; unfold r, createSession, getSession; fold i.
  destruct (get i b) as [se|] eqn:H; [split; [|split]; reflexivity|].
  split; [reflexivity|]; split; [reflexivity|]; split.
  - apply get_snoc_new, H.
  - intros y Hy; apply get_snoc_other, Hy.
Qed.

(** X12 (updateProgress, getProgress). After updateProgress on an existing session, getProgress returns exactly the emitted record and the other ids keep their progress; on a missing session nothing changes and nothing is emitted. *)
Theorem updateProgress_round_trip : forall b dl bytes total y,
  let b' := updateProgress b dl bytes total in
  let p := mkProgress dl bytes total (pct_of bytes total) PDownloading None in
  getProgress b' y
  = (if str_eqb y dl then
       match getProgress b dl with Some _ => Some p | None => None end
     else getProgress b y)
  /\ emitted b' = emitted b ++ match getProgress b dl with
                               | Some _ => [p]
                               | None => []
                               end.
Proof.
  intros b dl bytes total y b' p; unfold b', updateProgress, getProgress.
  destruct (get dl b) as [se|] eqn:H.
  - split; [|reflexivity].
    destruct (str_eqb y dl) eqn:E.
    + apply str_eqb_eq in E; subst y.
      rewrite get_put_same by congruence; reflexivity.
    + apply str_eqb_neq in E; rewrite get_put_other by exact E; reflexivity.
  - split; [|rewrite app_nil_r; reflexivity].
    destruct (str_eqb y dl) eqn:E; [|reflexivity].
    apply str_eqb_eq in E; subst y; rewrite H; reflexivity.
Qed.

(** X13 (updateProgress, markCompleted, markError, cancelDownload). Each session operation leaves the sessions of the other ids unchanged, and on a missing id all four change nothing (cancelDownload returns false). *)
Theorem session_operations_local : forall b dl bytes total e,
  (forall y, y <> dl ->
     getSession (updateProgress b dl bytes total) y = getSession b y
     /\ getSession (markCompleted b dl) y = getSession b y
     /\ getSession (markError b dl e) y = getSession b y
     /\ getSession (snd (cancelDownload b dl)) y = getSession b y)
  /\ (getSession b dl = None ->
      updateProgress b dl bytes total = b /\ markCompleted b dl = b
      /\ markError b dl e = b /\ cancelDownload b dl = (false, b)).
Proof.
  intros b dl bytes total e; unfold getSession; split.
  - intros y Hy; unfold updateProgress, markCompleted, markError, cancelDownload.
    destruct (get dl b); simpl; [|repeat split].
    rewrite !get_put_other by exact Hy; repeat split.
  - intros H; unfold updateProgress, markCompleted, markError, cancelDownload.
    rewrite H; repeat split.
Qed.

Lemma find_filter_kept : forall (p : jsstr * DownloadSession -> bool) y l kv,
  find (fun kv => str_eqb (fst kv) y) l = Some kv -> p kv = true ->
  find (fun kv => str_eqb (fst kv) y) (filter p l) = Some kv.
Proof.
  intros p y l kv; induction l as [|a l IH]; intros H Hp; [discriminate|].
  simpl in H |- *; destruct (str_eqb (fst a) y) eqn:E.
  - injection H as ->; rewrite Hp; simpl; rewrite E; reflexivity.
  - destruct (p a); simpl; [rewrite E|]; apply IH; assumption.
Qed.

(** X14 (cleanupSessions). Cleanup emits nothing, keeps every session that is still downloading or is at most thirty minutes old, and every session it keeps is downloading or at most thirty minutes old. *)
Theorem cleanupSessions_spec : forall b now,
  let b' := cleanupSessions b now in
  emitted b' = emitted b
  /\ (forall dl se, getSession b dl = Some se ->
        (status (sess_progress se) = PDownloading
         \/ now - sess_createdAt se <= sessionTimeout) ->
        getSession b' dl = Some se)
  /\ (forall dl se, In (dl, se) (sessions b') ->
        status (sess_progress se) = PDownloading
        \/ now - sess_createdAt se <= sessionTimeout).
Proof.
  intros b now b'; split; [reflexivity|]; split.
  - intros dl se H Hk; unfold getSession, get in *; simpl.
    destruct (find _ (sessions b)) as [[k v]|] eqn:E; [|discriminate].
    injection H as ->.
    rewrite (find_filter_kept _ dl _ (k, se) E); [reflexivity|].
    simpl; destruct Hk as [Hk|Hk].
    + rewrite Hk, andb_false_r; reflexivity.
    + replace (sessionTimeout <? now - sess_createdAt se) with false by lia.
      reflexivity.
  - intros dl se Hin; apply filter_In in Hin as [_ Hk]; simpl in Hk.
    destruct (sessionTimeout <? now - sess_createdAt se) eqn:A.
    + left; destruct (status (sess_progress se)); simpl in Hk;
        [reflexivity | discriminate..].
    + right; apply Z.ltb_ge in A; exact A.
Qed.

End ProgressExtras.


Module AnalyzeExtras.
Import Analyze AnalyzeClaims.
Local Open Scope Z_scope.






Import QueueRuns.


End AnalyzeExtras.


Module FilenameExtras.
Import Filename FilenameClaims.
Local Open Scope N_scope.

Lemma nd_firstn : forall t b n, nd b t = true -> nd b (firstn n t) = true.
Proof.
  induction t as [|c t IH]; intros b n H; destruct n as [|n]; simpl in *; auto.
  destruct (c =? 95).
  - apply andb_true_iff in H as [H1 H2]; rewrite H1; simpl; apply IH, H2.
  - apply IH, H.
Qed.

Lemma nd_no_double : forall t b, nd b t = true ->
  (b = true -> hd_error t <> Some 95)
  /\ (forall i, nth_error t i = Some 95 -> nth_error t (S i) <> Some 95).
Proof.
  induction t as [|c t IH]; intros b H; simpl in *.
  - split; [discriminate | intros [|i]; discriminate].
  - destruct (c =? 95) eqn:E.
    + apply N.eqb_eq in E; subst c.
      apply andb_true_iff in H as [Hb Ht]; destruct (IH true Ht) as [Hh Hn].
      split; [intros ->; discriminate|].
      intros [|i] Hi; simpl; [apply Hh; reflexivity | apply Hn, Hi].
    + destruct (IH false H) as [_ Hn]; split.
      * intros _ Hc; injection Hc as Hc; subst c; discriminate.
      * intros [|i] Hi; simpl in *; [injection Hi as Hi; subst c; discriminate|].
        apply Hn, Hi.
Qed.

(** X18 (safeFilename). The result never starts with an underscore and never contains two underscores in a row. *)
Theorem safeFilename_underscores : forall s,
  let t := safeFilename s in
  hd_error t <> Some 95
  /\ (forall i, nth_error t i = Some 95 -> nth_error t (S i) <> Some 95).
Proof.
  intros s t; enough (Hn : nd true t = true).
  { destruct (nd_no_double t true Hn) as [H1 H2]; split; [apply H1; reflexivity | exact H2]. }
  unfold t; destruct (truthy s) eqn:Hs.
  - rewrite (safeFilename_core s Hs); cbv zeta.
    destruct (truthy (firstn 100 (core s))).
    + apply nd_firstn, (proj1 (proj2 (core_shape s))).
    + vm_compute; reflexivity.
  - destruct s; [vm_compute; reflexivity | discriminate].
Qed.

End FilenameExtras.

Module ConversionExtras.
Import Queue Conversion.
Local Abbreviation replace_runs := Filename.replace_runs.
Local Open Scope N_scope.

(** X16 (isValidFormat, getFfmpegArgs, getContentType). Every format isValidFormat accepts has ffmpeg arguments reading from pipe:0 and writing to pipe:1 and a specific content type; every format it rejects makes getFfmpegArgs throw Unsupported conversion format. *)
Theorem conversion_formats_agree : forall f,
  (isValidFormat f = true ->
     exists args, getFfmpegArgs f = Returns args
       /\ firstn 2 args = [js "-i"; js "pipe:0"]
       /\ last args [] = js "pipe:1"
       /\ exists ct, getContentType f = Analyze.EStr ct
                     /\ ct <> js "application/octet-stream")
  /\ (isValidFormat f = false ->
      getFfmpegArgs f = Throws (js "Unsupported conversion format: " ++ f)).
Proof.
  intros f; unfold isValidFormat, getFfmpegArgs, getContentType; cbv zeta.
  simpl existsb.
  destruct (str_eqb (Url.to_lower f) (js "mp3")),
           (str_eqb (Url.to_lower f) (js "mp4")),
           (str_eqb (Url.to_lower f) (js "webm")),
           (str_eqb (Url.to_lower f) (js "aac"));
    simpl; split; intros H; try discriminate; try reflexivity;
    (eexists; split; [reflexivity|]; split; [reflexivity|]; split; [reflexivity|];
     eexists; split; [reflexivity | vm_compute; discriminate]).
Qed.

Definition safe_char (c : N) : bool :=
  negb (invalid_char c) && negb (Analyze.is_js_space c).

Lemma forallb_prefix : forall {A} (p : A -> bool) n l,
  forallb p l = true -> forallb p (firstn n l) = true.
Proof.
  intros A p n l H; apply forallb_forall; intros x Hx.
  rewrite forallb_forall in H; apply H.
  rewrite <- (firstn_skipn n l); apply in_or_app; left; exact Hx.
Qed.

Lemma replace_spaces_safe : forall t b,
  forallb (fun c => negb (invalid_char c)) t = true ->
  forallb safe_char (replace_runs Analyze.is_js_space 95 b t) = true.
Proof.
  induction t as [|c t IH]; intros b H; simpl in *; [reflexivity|].
  apply andb_true_iff in H as [Hc Ht].
  destruct (Analyze.is_js_space c) eqn:E; [destruct b|].
  - apply IH, Ht.
  - cbn [forallb]; rewrite (IH true Ht); reflexivity.
  - cbn [forallb]; unfold safe_char; rewrite Hc, E; cbn [negb andb]; apply IH, Ht.
Qed.

Lemma replace_spaces_id : forall t b,
  forallb safe_char t = true -> replace_runs Analyze.is_js_space 95 b t = t.
Proof.
  induction t as [|c t IH]; intros b H; simpl in *; [reflexivity|].
  apply andb_true_iff in H as [Hc Ht]; unfold safe_char in Hc.
  apply andb_true_iff in Hc as [_ Hs]; apply negb_true_iff in Hs.
  rewrite Hs, (IH false Ht); reflexivity.
Qed.

Lemma map_invalid_id : forall t, forallb safe_char t = true ->
  map (fun c => if invalid_char c then 95 else c) t = t.
Proof.
  induction t as [|c t IH]; intros H; simpl in *; [reflexivity|].
  apply andb_true_iff in H as [Hc Ht]; unfold safe_char in Hc.
  apply andb_true_iff in Hc as [Hi _]; apply negb_true_iff in Hi.
  rewrite Hi, (IH Ht); reflexivity.
Qed.

Lemma map_invalid_ok : forall t,
  forallb (fun c => negb (invalid_char c))
    (map (fun c => if invalid_char c then 95 else c) t) = true.
Proof.
  induction t as [|c t IH]; simpl; [reflexivity|].
  rewrite IH, andb_true_r; destruct (invalid_char c) eqn:E; [reflexivity|].
  rewrite E; reflexivity.
Qed.

(** X17 (ConversionService.sanitizeFilename). The result has at most 200 characters, none of them a reserved character or white space; sanitizing it again changes nothing, and a name already of that form is returned unchanged. *)
Theorem sanitizeFilename_safe : forall s,
  let t := sanitizeFilename s in
  (List.length t <= 200)%nat
  /\ forallb (fun c => negb (invalid_char c) && negb (Analyze.is_js_space c)) t = true
  /\ sanitizeFilename t = t
  /\ (forallb (fun c => negb (invalid_char c) && negb (Analyze.is_js_space c)) s = true ->
      (List.length s <= 200)%nat -> sanitizeFilename s = s).
Proof.
  assert (Hid : forall u, forallb safe_char u = true -> (List.length u <= 200)%nat ->
                  sanitizeFilename u = u).
  { intros u Hu Hl; unfold sanitizeFilename, Filename.collapse_spaces.
    rewrite map_invalid_id, replace_spaces_id by exact Hu.
    apply firstn_all2, Hl. }
  intros s t.
  assert (Ht : forallb safe_char t = true).
  { unfold t, sanitizeFilename, Filename.collapse_spaces.
    apply forallb_prefix, replace_spaces_safe, map_invalid_ok. }
  assert (Hl : (List.length t <= 200)%nat).
  { unfold t, sanitizeFilename; rewrite length_firstn; lia. }
  split; [exact Hl|]; split; [exact Ht|]; split; [apply Hid; assumption|].
  exact (Hid s).
Qed.

End ConversionExtras.


Module DurationExtras.
Import Duration.
Local Open Scope Z_scope.

Definition dval (p : jsstr) : Z := Z.of_N (Url.digits_value p).

Lemma dval_snoc : forall ds c, Url.is_digit c = true ->
  dval (ds ++ [c]) = dval ds * 10 + (Z.of_N c - 48).
Proof.
  intros ds c Hc; unfold dval, Url.digits_value; rewrite fold_left_app; simpl.
  unfold Url.is_digit in Hc; apply andb_true_iff in Hc as [H1 H2].
  apply N.leb_le in H1; apply N.leb_le in H2; lia.
Qed.

Lemma digit_char : forall d, 0 <= d < 10 ->
  Url.is_digit (Z.to_N (48 + d)) = true /\ Z.of_N (Z.to_N (48 + d)) - 48 = d.
Proof.
  intros d Hd; assert (Hc : Z.of_N (Z.to_N (48 + d)) = 48 + d) by (apply Z2N.id; lia).
  generalize dependent (Z.to_N (48 + d)); intros c Hc; split; [|lia].
  unfold Url.is_digit; apply andb_true_iff; split; apply N.leb_le; lia.
Qed.

Lemma pos_digits_S : forall f n acc, Analyze.pos_digits (S f) n acc =
  if n <? 10 then Z.to_N (48 + n) :: acc
  else Analyze.pos_digits f (n / 10) (Z.to_N (48 + n mod 10) :: acc).
Proof. reflexivity. Qed.

Lemma pos_digits_spec : forall f n acc, 0 <= n < 10 ^ Z.of_nat (S f) ->
  exists ds, Analyze.pos_digits (S f) n acc = ds ++ acc /\ ds <> []
    /\ forallb Url.is_digit ds = true /\ dval ds = n
    /\ (n < 10 -> List.length ds = 1%nat)
    /\ (n < 100 -> (List.length ds <= 2)%nat).
Proof.
  induction f as [|f IH]; intros n acc Hn; rewrite pos_digits_S.
  - assert (n < 10) by (simpl in Hn; lia).
    replace (n <? 10) with true by (symmetry; apply Z.ltb_lt; lia).
    destruct (digit_char n ltac:(lia)) as [Hd Hv].
    exists [Z.to_N (48 + n)]; repeat split; try discriminate; try (intros; reflexivity).
    + cbn [forallb]; rewrite Hd; reflexivity.
    + change [Z.to_N (48 + n)] with ([] ++ [Z.to_N (48 + n)]).
      rewrite dval_snoc by exact Hd; change (dval []) with 0; lia.
    + simpl; lia.
  - destruct (n <? 10) eqn:E.
    + apply Z.ltb_lt in E.
      destruct (digit_char n ltac:(lia)) as [Hd Hv].
      exists [Z.to_N (48 + n)]; repeat split; try discriminate; try (intros; reflexivity).
      * cbn [forallb]; rewrite Hd; reflexivity.
      * change [Z.to_N (48 + n)] with ([] ++ [Z.to_N (48 + n)]).
        rewrite dval_snoc by exact Hd; change (dval []) with 0; lia.
      * simpl; lia.
    + apply Z.ltb_ge in E.
      pose proof (Z.mod_pos_bound n 10 ltac:(lia)).
      destruct (digit_char (n mod 10) ltac:(lia)) as [Hd Hdv].
      destruct (IH (n / 10) (Z.to_N (48 + n mod 10) :: acc)) as
        (ds & Heq & Hne & Hall & Hv & H1 & H2).
      { split; [apply Z.div_pos; lia|].
        apply Z.div_lt_upper_bound; [lia|].
        rewrite Nat2Z.inj_succ, Z.pow_succ_r in Hn by lia. lia. }
      exists (ds ++ [Z.to_N (48 + n mod 10)]); rewrite Heq, <- app_assoc; cbn [app].
      repeat split.
      * destruct ds; discriminate.
      * rewrite forallb_app, Hall; cbn [forallb andb]; rewrite Hd; reflexivity.
      * rewrite dval_snoc by exact Hd; rewrite Hv.
        pose proof (Z.div_mod n 10 ltac:(lia)); lia.
      * intros; lia.
      * intros Hlt; rewrite length_app; cbn [List.length].
        assert (Hq : n / 10 < 10) by (apply Z.div_lt_upper_bound; lia).
        rewrite (H1 Hq); lia.
Qed.

Lemma render_num_spec : forall n, 0 <= n < 10 ^ 21 ->
  let ds := Analyze.render_num n in
  ds <> [] /\ forallb Url.is_digit ds = true /\ dval ds = n
  /\ (n < 100 -> (List.length ds <= 2)%nat).
Proof.
  intros n Hn ds; unfold ds, Analyze.render_num.
  replace (n <? 0) with false by (symmetry; apply Z.ltb_ge; lia).
  destruct (pos_digits_spec 31 n [] ltac:(split; [lia|]; eapply Z.lt_le_trans; [apply Hn|];
                                          apply Z.pow_le_mono_r; lia))
    as (l & Heq & Hne & Hall & Hv & _ & H2).
  rewrite Heq, app_nil_r; auto.
Qed.

Lemma padStart2_spec : forall ds, ds <> [] -> forallb Url.is_digit ds = true ->
  (List.length ds <= 2)%nat ->
  List.length (padStart2 ds) = 2%nat /\ forallb Url.is_digit (padStart2 ds) = true
  /\ dval (padStart2 ds) = dval ds.
Proof.
  intros ds Hne Hall Hl; destruct ds as [|c [|c' [|c'' r]]].
  - congruence.
  - unfold padStart2; cbn [List.length Nat.ltb Nat.leb repeat app Nat.sub].
    split; [reflexivity|]; split; [cbn [forallb] in *; rewrite Hall; reflexivity|].
    unfold dval, Url.digits_value; reflexivity.
  - unfold padStart2; cbn [List.length Nat.ltb Nat.leb].
    split; [reflexivity|]; split; [exact Hall | reflexivity].
  - cbn [List.length] in Hl; lia.
Qed.

Lemma split_digits : forall a r, forallb Url.is_digit a = true ->
  Url.split_on 58 (a ++ 58%N :: r) = a :: Url.split_on 58 r.
Proof.
  induction a as [|c a IH]; intros r H; [reflexivity|].
  simpl in H; apply andb_true_iff in H as [Hc Ha].
  cbn [app Url.split_on]; rewrite (IH r Ha).
  replace (c =? 58)%N with false; [reflexivity|].
  symmetry; apply N.eqb_neq; unfold Url.is_digit in Hc.
  apply andb_true_iff in Hc as [_ Hc]; apply N.leb_le in Hc; lia.
Qed.

Lemma split_digits_end : forall a, forallb Url.is_digit a = true ->
  Url.split_on 58 a = [a].
Proof.
  induction a as [|c a IH]; intros H; [reflexivity|].
  simpl in H; apply andb_true_iff in H as [Hc Ha].
  cbn [Url.split_on]; rewrite (IH Ha).
  replace (c =? 58)%N with false; [reflexivity|].
  symmetry; apply N.eqb_neq; unfold Url.is_digit in Hc.
  apply andb_true_iff in Hc as [_ Hc]; apply N.leb_le in Hc; lia.
Qed.

(** X19 (formatDuration). For a whole number of seconds n with 0 <= n < 2^53 (the safe integers) the result is two or three colon-separated fields of decimal digits, every field after the first has exactly two digits and a value below 60, and reading the fields in base 60 gives back n. *)
Theorem formatDuration_clock : forall n, 0 <= n < 2 ^ 53 ->
  let fields := Url.split_on 58 (formatDuration n) in
  (List.length fields = 2 \/ List.length fields = 3)%nat
  /\ Forall (fun p => p <> [] /\ forallb Url.is_digit p = true) fields
  /\ Forall (fun p => List.length p = 2%nat /\ Z.of_N (Url.digits_value p) < 60) (tl fields)
  /\ fold_left (fun acc p => acc * 60 + Z.of_N (Url.digits_value p)) fields 0 = n.
Proof.
  intros n Hn fields.
  change (2 ^ 53) with 9007199254740992 in Hn.
  assert (Hr1 : Z.rem n 3600 = n mod 3600) by (apply Z.rem_mod_nonneg; lia).
  assert (Hr2 : Z.rem n 60 = n mod 60) by (apply Z.rem_mod_nonneg; lia).
  pose proof (Z.mod_pos_bound n 3600 ltac:(lia)).
  pose proof (Z.mod_pos_bound n 60 ltac:(lia)).
  pose proof (Z.div_mod n 3600 ltac:(lia)).
  pose proof (Z.div_mod n 60 ltac:(lia)).
  assert (Hm : 0 <= n mod 3600 / 60 < 60).
  { split; [apply Z.div_pos; lia | apply Z.div_lt_upper_bound; lia]. }
  assert (Hmm : n mod 3600 = 60 * (n mod 3600 / 60) + n mod 60).
  { pose proof (Z.div_mod (n mod 3600) 60 ltac:(lia)).
    rewrite (Z.mod_mod_divide n 3600 60) in H3 by (exists 60; reflexivity).
    lia. }
  destruct (render_num_spec (n mod 3600 / 60) ltac:(lia)) as (Mne & Mall & Mv & Ml).
  destruct (render_num_spec (n mod 60) ltac:(lia)) as (Sne & Sall & Sv & Sl).
  destruct (padStart2_spec _ Sne Sall ltac:(apply Sl; lia)) as (PSl & PSall & PSv).
  unfold fields, formatDuration; cbv zeta.
  assert (Hb : 2 ^ 53 = 9007199254740992 /\ 2 ^ 1000 > 3600)
    by (split; [reflexivity | apply Z.lt_gt, Z.ltb_lt; reflexivity]).
  rewrite Hr1.
  rewrite (DoubleFacts.floor_div_nonneg n 3600) by lia.
  rewrite (DoubleFacts.floor_div_nonneg (n mod 3600) 60) by lia.
  rewrite Hr2.
  change (js ":") with [58%N].
  destruct (0 <? n / 3600) eqn:Eh.
  - apply Z.ltb_lt in Eh.
    assert (Hh : 0 <= n / 3600 < 10 ^ 21).
    { split; [lia|]. apply Z.div_lt_upper_bound; [lia|].
      change (10 ^ 21) with 1000000000000000000000; lia. }
    destruct (render_num_spec (n / 3600) Hh) as (Hne & Hall & Hv & _).
    destruct (padStart2_spec _ Mne Mall ltac:(apply Ml; lia)) as (PMl & PMall & PMv).
    simpl app; rewrite split_digits by exact Hall.
    rewrite split_digits by exact PMall.
    rewrite split_digits_end by exact PSall.
    repeat split; simpl; auto.
    + repeat constructor; auto; intros Hc; rewrite Hc in *; discriminate.
    + repeat constructor; auto; fold (dval (padStart2 (Analyze.render_num (n mod 3600 / 60))));
        fold (dval (padStart2 (Analyze.render_num (n mod 60)))); lia.
    + fold (dval (Analyze.render_num (n / 3600)));
      fold (dval (padStart2 (Analyze.render_num (n mod 3600 / 60))));
      fold (dval (padStart2 (Analyze.render_num (n mod 60)))); lia.
  - apply Z.ltb_ge in Eh.
    assert (n / 3600 = 0) by (apply Z.le_antisymm; [exact Eh | apply Z.div_pos; lia]).
    simpl app; rewrite split_digits by exact Mall.
    rewrite split_digits_end by exact PSall.
    repeat split; simpl; auto.
    + repeat constructor; auto; intros Hc; rewrite Hc in *; discriminate.
    + repeat constructor; auto; fold (dval (padStart2 (Analyze.render_num (n mod 60)))); lia.
    + fold (dval (Analyze.render_num (n mod 3600 / 60)));
      fold (dval (padStart2 (Analyze.render_num (n mod 60)))); lia.
Qed.



Lemma formatDuration_clock_witness :
  0 <= 3725 < 2 ^ 53
  /\ ((List.length (Url.split_on 58 (formatDuration 3725)) = 2
       \/ List.length (Url.split_on 58 (formatDuration 3725)) = 3)%nat
      /\ Forall (fun p => p <> [] /\ forallb Url.is_digit p = true)
           (Url.split_on 58 (formatDuration 3725))
      /\ Forall (fun p => List.length p = 2%nat /\ Z.of_N (Url.digits_value p) < 60)
           (tl (Url.split_on 58 (formatDuration 3725)))
      /\ fold_left (fun acc p => acc * 60 + Z.of_N (Url.digits_value p))
           (Url.split_on 58 (formatDuration 3725)) 0 = 3725).
Proof.
  assert (H : 0 <= 3725 < 2 ^ 53) by (split; [lia | vm_compute; reflexivity]).
  split; [exact H | exact (formatDuration_clock 3725 H)].
Defined.

End DurationExtras.
